(** * A shallow embedding of the command-line framework

    The development follows the framework's source (a typesafe command
    framework around minimist and inquirer) and its validators,
    [src/validate.ts].

    - JavaScript values are an inductive type [JsValue]; objects used as
      dictionaries are association lists in the order [Object.keys] lists
      their keys.
    - [async] functions are run to completion one after the other: a
      computation is a trace of the calls it made to its collaborators
      together with its outcome (a returned value or a thrown error).
    - The collaborators the framework does not own (the terminal, the
      question-asking module, the table and bold renderers) are fields of an
      environment record [Env]. *)

From Stdlib Require Import ZArith List String Ascii Bool Lia.
From Stdlib Require Import DecimalString DecimalZ.
Import ListNotations.
Open Scope list_scope.
Open Scope string_scope.

(** [++] joins strings; [+++] joins lists. *)
Infix "+++" := app (right associativity, at level 60).

(* ===================================================================== *)
(** ** JavaScript values *)
(* ===================================================================== *)

(** Numbers of the embedding are the integers, taken exactly.  A number read
    from numeric text that does not denote an integer (["1.5"], ["1e-3"]) is
    kept as [JFloat] with that text; the embedding never computes with it,
    and has no [NaN] and no infinities. *)
#[warnings="-register-all"]
Inductive JsValue : Type :=
| JUndefined
| JNull
| JBool (b : bool)
| JNum (n : Z)
| JFloat (text : string)
| JStr (s : string)
| JArr (items : list JsValue).

(** A dictionary object, keys in [Object.keys] order. *)
Definition JsObject : Type := list (string * JsValue).

Inductive JsError : Type :=
| CommandLineError (message : string) (details : JsValue)
| TypeError (message : string)
| Error (message : string).

Definition error_message (e : JsError) : string :=
  match e with
  | CommandLineError m _ => m
  | TypeError m => m
  | Error m => m
  end.

(** [error.type === "CommandLineError"] *)
Definition is_CommandLineError (e : JsError) : bool :=
  match e with
  | CommandLineError _ _ => true
  | _ => false
  end.

Inductive Outcome (A : Type) : Type :=
| Returned (a : A)
| Thrown (e : JsError).
Arguments Returned {A} a.
Arguments Thrown {A} e.

Module Js.

(** [Boolean(v)] *)
Definition truthy (v : JsValue) : bool :=
  match v with
  | JUndefined | JNull => false
  | JBool b => b
  | JNum n => negb (Z.eqb n 0)
  | JFloat _ => true
  | JStr s => negb (String.eqb s "")
  | JArr _ => true
  end.

(** [typeof v] *)
Definition typeof (v : JsValue) : string :=
  match v with
  | JUndefined => "undefined"
  | JNull => "object"
  | JBool _ => "boolean"
  | JNum _ | JFloat _ => "number"
  | JStr _ => "string"
  | JArr _ => "object"
  end.

(** Decimal text of an integer. *)
Definition dec (z : Z) : string := NilZero.string_of_int (Z.to_int z).

Definition dec_nat (n : nat) : string := dec (Z.of_nat n).

(** [xs.join(sep)] on strings. *)
Definition join (sep : string) (xs : list string) : string :=
  String.concat sep xs.

(** [String(v)], as a template literal does it. *)
Fixpoint String_ (v : JsValue) : string :=
  match v with
  | JUndefined => "undefined"
  | JNull => "null"
  | JBool true => "true"
  | JBool false => "false"
  | JNum n => dec n
  | JFloat t => t
  | JStr s => s
  | JArr items =>
      join "," (map (fun x => match x with
                              | JUndefined | JNull => ""
                              | _ => String_ x
                              end) items)
  end.

(** [v.toString()]: a method call, so it throws on [undefined] and [null]
    (the wording of the message is the engine's). *)
Definition toString (v : JsValue) : Outcome string :=
  match v with
  | JUndefined =>
      Thrown (TypeError "Cannot read property 'toString' of undefined")
  | JNull =>
      Thrown (TypeError "Cannot read property 'toString' of null")
  | _ => Returned (String_ v)
  end.

(** *** [JSON.stringify] *)

Definition hex_digit (n : nat) : ascii :=
  ascii_of_nat (if Nat.ltb n 10 then 48 + n else 87 + n).

Definition dquote : ascii := ascii_of_nat 34.
Definition newline : string := String (ascii_of_nat 10) "".

Definition escape_char (c : ascii) : string :=
  let n := nat_of_ascii c in
  if Nat.eqb n 34 then String "\" (String dquote "")
  else if Nat.eqb n 92 then "\\"
  else if Nat.eqb n 8 then "\b"
  else if Nat.eqb n 12 then "\f"
  else if Nat.eqb n 10 then "\n"
  else if Nat.eqb n 13 then "\r"
  else if Nat.eqb n 9 then "\t"
  else if Nat.ltb n 32 then
    "\u00" ++ String (hex_digit (n / 16)) (String (hex_digit (n mod 16)) "")
  else String c "".

Fixpoint escape (s : string) : string :=
  match s with
  | EmptyString => ""
  | String c rest => escape_char c ++ escape rest
  end.

Definition quote (s : string) : string :=
  String dquote (escape s ++ String dquote "").

(** [JSON.stringify(v, null, gap)] at the nesting [indent]; [None] is the
    [undefined] it gives for [undefined].  With an empty [gap] the output
    has no line breaks. *)
Fixpoint stringify_at (gap indent : string) (v : JsValue) : option string :=
  match v with
  | JUndefined => None
  | JNull => Some "null"
  | JBool true => Some "true"
  | JBool false => Some "false"
  | JNum n => Some (dec n)
  | JFloat t => Some t
  | JStr s => Some (quote s)
  | JArr [] => Some "[]"
  | JArr items =>
      let inner := indent ++ gap in
      let cell x := match stringify_at gap inner x with
                    | Some t => t
                    | None => "null"
                    end in
      if String.eqb gap "" then
        Some ("[" ++ join "," (map cell items) ++ "]")
      else
        Some ("[" ++ newline ++ inner
                  ++ join ("," ++ newline ++ inner) (map cell items)
                  ++ newline ++ indent ++ "]")
  end.

(** [JSON.stringify(v, null, "  ")] *)
Definition stringify (v : JsValue) : option string := stringify_at "  " "" v.


(** A value that may be [undefined] put into a template literal. *)
Definition template (o : option string) : string :=
  match o with
  | Some s => s
  | None => "undefined"
  end.

(** [xs.join(sep)] where an element may be [undefined]. *)
Definition join_opt (sep : string) (xs : list (option string)) : string :=
  join sep (map (fun o => match o with Some s => s | None => "" end) xs).

End Js.

(* ===================================================================== *)
(** ** Numeric text: [isNumber] and [defaultParser] *)
(* ===================================================================== *)

Module Text.

Definition is_digit (c : ascii) : bool :=
  let n := nat_of_ascii c in Nat.leb 48 n && Nat.leb n 57.

Definition is_hex_digit (c : ascii) : bool :=
  let n := nat_of_ascii c in
  is_digit c || (Nat.leb 97 n && Nat.leb n 102)
             || (Nat.leb 65 n && Nat.leb n 70).

Definition is_empty (s : string) : bool :=
  match s with EmptyString => true | _ => false end.

Fixpoint all_chars (p : ascii -> bool) (s : string) : bool :=
  match s with
  | EmptyString => true
  | String c r => p c && all_chars p r
  end.

(** Longest prefix of characters satisfying [p], and the rest. *)
Fixpoint span (p : ascii -> bool) (s : string) : string * string :=
  match s with
  | EmptyString => ("", "")
  | String c r =>
      if p c then let (a, b) := span p r in (String c a, b)
      else ("", s)
  end.

(** [/^0x[0-9a-f]+$/i] *)
Definition hex_literal (s : string) : option string :=
  match s with
  | String "0" (String x r) =>
      if (Ascii.eqb x "x" || Ascii.eqb x "X")
         && negb (is_empty r) && all_chars is_hex_digit r
      then Some r else None
  | _ => None
  end.

Record DecimalLiteral : Type := {
  negative : bool;
  int_digits : string;
  frac_digits : string;
  exp_negative : bool;
  exp_digits : string
}.

(** [[-+]?] *)
Definition read_sign (s : string) : bool * string :=
  match s with
  | String "-" r => (true, r)
  | String "+" r => (false, r)
  | _ => (false, s)
  end.

(** The optional exponent up to the end: [e], an optional sign, digits. *)
Definition read_exponent (s : string) : option (bool * string) :=
  match s with
  | EmptyString => Some (false, "")
  | String "e" r =>
      let (neg, r1) := read_sign r in
      let (es, rest) := span is_digit r1 in
      if negb (is_empty es) && is_empty rest then Some (neg, es) else None
  | _ => None
  end.

(** The decimal pattern of [isNumber], anchored at both ends: an optional
    sign; then either digits with an optional point and further digits, or
    a point followed by digits; then an optional exponent. *)
Definition decimal_literal (s : string) : option DecimalLiteral :=
  let (neg, s1) := read_sign s in
  let (ds, r1) := span is_digit s1 in
  match r1 with
  | String "." r2 =>
      let (fs, r3) := span is_digit r2 in
      if is_empty ds && is_empty fs then None
      else match read_exponent r3 with
           | Some (eneg, es) => Some (Build_DecimalLiteral neg ds fs eneg es)
           | None => None
           end
  | _ =>
      if is_empty ds then None
      else match read_exponent r1 with
           | Some (eneg, es) => Some (Build_DecimalLiteral neg ds "" eneg es)
           | None => None
           end
  end.

(** Value of a run of decimal digits (0 for the empty run). *)
Definition digits_value (s : string) : Z :=
  match NilEmpty.uint_of_string s with
  | Some d => Z.of_uint d
  | None => 0
  end.

Definition hex_digit_value (c : ascii) : Z :=
  let n := nat_of_ascii c in
  Z.of_nat (if is_digit c then n - 48
            else if Nat.leb 97 n then n - 87 else n - 55).

Fixpoint hex_value_acc (acc : Z) (s : string) : Z :=
  match s with
  | EmptyString => acc
  | String c r => hex_value_acc (16 * acc + hex_digit_value c) r
  end.

(** The number a decimal literal denotes, when it is an integer. *)
Definition decimal_value (l : DecimalLiteral) : option Z :=
  let m := digits_value (int_digits l ++ frac_digits l) in
  let e := digits_value (exp_digits l) in
  let k := ((if exp_negative l then - e else e)
            - Z.of_nat (String.length (frac_digits l)))%Z in
  let sgn := if negative l then (-1)%Z else 1%Z in
  if (0 <=? k)%Z then Some (sgn * m * 10 ^ k)%Z
  else if (m mod 10 ^ (- k) =? 0)%Z then Some (sgn * (m / 10 ^ (- k)))%Z
  else None.

(** [Number(text)] for text that [isNumber] accepts. *)
Definition number_of_text (s : string) : JsValue :=
  match hex_literal s with
  | Some digits => JNum (hex_value_acc 0 digits)
  | None =>
      match decimal_literal s with
      | Some l => match decimal_value l with
                  | Some z => JNum z
                  | None => JFloat s
                  end
      | None => JFloat s
      end
  end.

End Text.

(** [Number(v)] *)
Definition Number_ (v : JsValue) : JsValue :=
  match v with
  | JNum _ | JFloat _ => v
  | _ => Text.number_of_text (Js.String_ v)
  end.

(** Copied from Minimist: [typeof x === "number"], or [x.toString()] matches
    the hexadecimal pattern, or it matches the decimal pattern. *)
Definition isNumber (x : JsValue) : Outcome bool :=
  if String.eqb (Js.typeof x) "number" then Returned true
  else match Js.toString x with
       | Thrown e => Thrown e
       | Returned t =>
           Returned (match Text.hex_literal t with
                     | Some _ => true
                     | None => match Text.decimal_literal t with
                               | Some _ => true
                               | None => false
                               end
                     end)
       end.

(** A rough estimate of Minimist's behavior. *)
Definition defaultParser (value : JsValue) : Outcome JsValue :=
  match isNumber value with
  | Thrown e => Thrown e
  | Returned true => Returned (Number_ value)
  | Returned false =>
      match value with
      | JStr "true" => Returned (JBool true)
      | JStr "false" => Returned (JBool false)
      | _ => Returned value
      end
  end.


(* ===================================================================== *)
(** ** Computations: a trace of calls and an outcome *)
(* ===================================================================== *)

(** What a run of the framework does that can be observed from outside, in
    the order it does it. *)
Inductive Event : Type :=
| EvParseFlag (name : string)         (** [parseFlag(name, ...)] is entered *)
| EvParseArg (index : nat)            (** [parseArg(index, ...)] is entered *)
| EvCallParse (input : JsValue)       (** [flag.parse(input)] *)
| EvCallValidate (value : JsValue)    (** [flag.validate(value)] *)
| EvCallDefault                       (** [flag.default()] *)
| EvInteractive                       (** [interactive()] *)
| EvCallPrompt (message : string)     (** [flag.prompt({...})] *)
| EvAsk (message : string)            (** [prompt([question])] *)
| EvLoad (name : string)              (** a command loader is invoked *)
| EvRun (flags : JsObject) (positionals : option (list JsValue * list JsValue))
                                      (** [command.run(...)] *)
| EvLog (text : string).              (** [logger.log(text)] *)

Definition M (A : Type) : Type := list Event * Outcome A.

Definition ret {A} (a : A) : M A := ([], Returned a).
Definition throw {A} (e : JsError) : M A := ([], Thrown e).
Definition emit (ev : Event) : M unit := ([ev], Returned tt).
Definition lift {A} (o : Outcome A) : M A := ([], o).

Definition bind {A B} (m : M A) (f : A -> M B) : M B :=
  match m with
  | (t, Returned a) => let (t', o) := f a in (t +++ t', o)
  | (t, Thrown e) => (t, Thrown e)
  end.

Notation "x <- m ;; k" := (bind m (fun x => k))
  (at level 61, m at next level, right associativity).
Notation "m ;; k" := (bind m (fun _ => k))
  (at level 61, right associativity).

Definition trace {A} (m : M A) : list Event := fst m.
Definition outcome {A} (m : M A) : Outcome A := snd m.

(* ===================================================================== *)
(** ** Declarations: flags, positional arguments, questions *)
(* ===================================================================== *)

(** What a question's [validate] answers: [true], or guidance text. *)
Inductive Verdict : Type :=
| Accepted
| Rejected (guidance : string).

(** The inquirer question the framework constructs. *)
Record Question : Type := {
  q_name : string;
  q_type : string;
  q_message : string;
  q_filter : JsValue -> Outcome JsValue;
  q_validate : JsValue -> Outcome Verdict
}.

(** An inquirer prompt function: [(await prompt([question])).value]. *)
Definition PromptModule : Type := Question -> Outcome JsValue.

(** What a custom [prompt] function is given: the prompt function and the
    constructed question (the inquirer module itself is left out). *)
Record PromptArgs : Type := {
  pa_prompt : PromptModule;
  pa_question : Question
}.

(** Describes a command-line option. *)
Module Flag.
Record t : Type := {
  description : string;
  validate : JsValue -> bool;
  default : option (unit -> Outcome JsValue);
  prompt : option (PromptArgs -> Outcome JsValue);
  parse : option (JsValue -> Outcome JsValue)
}.
End Flag.

(** Describes a positional command-line parameter. *)
Module Arg.
Record t : Type := {
  name : string;
  description : string;
  validate : JsValue -> bool;
  prompt : option (PromptArgs -> Outcome JsValue);
  parse : option (JsValue -> Outcome JsValue)
}.
End Arg.

(** [Arg<T> | Flag<T>], as [tryParseValue] and [tryPrompt] take it. *)
Inductive ArgOrFlag : Type :=
| OfArg (a : Arg.t)
| OfFlag (f : Flag.t).

Definition spec_description (s : ArgOrFlag) : string :=
  match s with OfArg a => Arg.description a | OfFlag f => Flag.description f end.
Definition spec_validate (s : ArgOrFlag) : JsValue -> bool :=
  match s with OfArg a => Arg.validate a | OfFlag f => Flag.validate f end.
Definition spec_prompt (s : ArgOrFlag) : option (PromptArgs -> Outcome JsValue) :=
  match s with OfArg a => Arg.prompt a | OfFlag f => Flag.prompt f end.
Definition spec_parse (s : ArgOrFlag) : option (JsValue -> Outcome JsValue) :=
  match s with OfArg a => Arg.parse a | OfFlag f => Flag.parse f end.

(** [FlagMap<T>]: the declared flags, in [Object.keys] order. *)
Definition FlagMap : Type := list (string * Flag.t).
Definition ArgArray : Type := list Arg.t.

(** The collaborators the framework calls but does not own. *)
Record Env : Type := {
  isTTY : bool;                              (** [process.stderr.isTTY] *)
  createPromptModule : PromptModule;         (** [inquirer.createPromptModule()] *)
  chalk_bold : string -> string;             (** [chalk.bold] *)
  table : list (list string) -> string       (** [table(rows, config)] *)
}.

(* ===================================================================== *)
(** ** Objects *)
(* ===================================================================== *)

Module Obj.
Section Dict.
Context {V : Type}.

Definition keys (o : list (string * V)) : list string := map fst o.

Fixpoint get (o : list (string * V)) (k : string) : option V :=
  match o with
  | [] => None
  | (k', v) :: rest => if String.eqb k k' then Some v else get rest k
  end.

Definition has (o : list (string * V)) (k : string) : bool :=
  match get o k with Some _ => true | None => false end.

(** [o[k] = v]: in place when the key exists, else appended. *)
Fixpoint set (o : list (string * V)) (k : string) (v : V)
  : list (string * V) :=
  match o with
  | [] => [(k, v)]
  | (k', v') :: rest =>
      if String.eqb k k' then (k', v) :: rest
      else (k', v') :: set rest k v
  end.
End Dict.

(** [xs.includes(x)] *)
Definition includes (xs : list string) (x : string) : bool :=
  existsb (String.eqb x) xs.

(** [o[k]], which is [undefined] for a key the object does not have. *)
Definition read (o : JsObject) (k : string) : JsValue :=
  match get o k with
  | Some v => v
  | None => JUndefined
  end.
End Obj.

(** [MinimistArgv]: the positional tokens under ["_"], and every other key.
    The object is a plain dictionary; members inherited from
    [Object.prototype] are not part of the embedding. *)
Record MinimistArgv : Type := {
  positional : list JsValue;
  named : JsObject
}.

(** [Object.keys(argv)] *)
Definition Object_keys (argv : MinimistArgv) : list string :=
  "_" :: Obj.keys (named argv).

(** [name in argv] *)
Definition argv_has (argv : MinimistArgv) (name : string) : bool :=
  String.eqb name "_" || Obj.has (named argv) name.

(** [argv[name]] *)
Definition argv_get (argv : MinimistArgv) (name : string) : JsValue :=
  if String.eqb name "_" then JArr (positional argv)
  else Obj.read (named argv) name.

(* ===================================================================== *)
(** ** The resolution pipeline *)
(* ===================================================================== *)

(** If [interactive()] returns false, don't try to prompt the user. *)
Definition interactive (env : Env) : M bool :=
  emit EvInteractive ;; ret (isTTY env).

Definition inspect (x : JsValue) : option string := Js.stringify x.

Definition tryParseValue (name : string) (flag : ArgOrFlag) (value : JsValue)
  : M JsValue :=
  finalValue <-
    match spec_parse flag with
    | Some parse =>
        emit (EvCallParse value) ;;
        match parse value with
        | Returned v => ret v
        | Thrown error =>
            throw (CommandLineError
                     (name ++ ": cannot parse " ++ Js.template (inspect value)
                           ++ ": " ++ error_message error)
                     value)
        end
    | None => ret value
    end ;;
  emit (EvCallValidate finalValue) ;;
  if negb (spec_validate flag finalValue) then
    throw (CommandLineError
             (name ++ ": invalid value: "
                   ++ Js.template (inspect finalValue) ++ ")")
             finalValue)
  else ret finalValue.

(** The question [tryPrompt] constructs. *)
Definition default_question (name : string) (flag : ArgOrFlag) : Question :=
  let message := name ++ ": " ++ spec_description flag in
  let filter := match spec_parse flag with
                | Some parse => parse
                | None => defaultParser
                end in
  let validate := fun input =>
    match filter input with
    | Thrown e => Thrown e
    | Returned v =>
        Returned (if spec_validate flag v then Accepted
                  else Rejected (name ++ ": Invalid value "
                                      ++ Js.template (inspect input)
                                      ++ ", try again."))
    end in
  {| q_name := "value"; q_type := "input"; q_message := message;
     q_filter := filter; q_validate := validate |}.

Definition tryPrompt (env : Env) (name : string) (flag : ArgOrFlag)
  : M JsValue :=
  tty <- interactive env ;;
  if negb tty then
    throw (CommandLineError
             (name ++ ": Required but not given (and cannot prompt in non-iteractive mode)")
             (JStr name))
  else
    let prompt := createPromptModule env in
    let question := default_question name flag in
    value <-
      match spec_prompt flag with
      | Some custom =>
          emit (EvCallPrompt (q_message question)) ;;
          lift (custom {| pa_prompt := prompt; pa_question := question |})
      | None =>
          emit (EvAsk (q_message question)) ;;
          lift (prompt question)
      end ;;
    emit (EvCallValidate value) ;;
    if spec_validate flag value then ret value
    else
      throw (CommandLineError
               (name ++ ": prompting returned invalid value: "
                     ++ Js.template (inspect value))
               value).

Definition parseFlag (env : Env) (name : string) (flag : Flag.t)
  (argv : MinimistArgv) : M JsValue :=
  emit (EvParseFlag name) ;;
  let givenValue := argv_get argv name in
  if argv_has argv name then
    tryParseValue ("--" ++ name) (OfFlag flag) givenValue
  else
    match Flag.default flag with
    | Some producer =>
        emit EvCallDefault ;;
        defaulted <- lift (producer tt) ;;
        emit (EvCallValidate defaulted) ;;
        if Flag.validate flag defaulted then ret defaulted
        else
          throw (CommandLineError
                   ("--" ++ name ++ ": BUG: the default value was invalid: "
                         ++ Js.template (inspect defaulted))
                   defaulted)
    | None => tryPrompt env ("--" ++ name) (OfFlag flag)
    end.

Definition parseArg (env : Env) (index : nat) (arg : Arg.t)
  (argv : list JsValue) : M JsValue :=
  emit (EvParseArg index) ;;
  let name := "arg " ++ Js.dec_nat (index + 1) ++ " (" ++ Arg.name arg ++ ")" in
  match nth_error argv index with
  | Some givenValue => tryParseValue name (OfArg arg) givenValue
  | None => tryPrompt env name (OfArg arg)
  end.

(** [flagSet[name].default], truthy or not. *)
Definition has_default (flagSet : FlagMap) (name : string) : bool :=
  match Obj.get flagSet name with
  | Some flag => match Flag.default flag with Some _ => true | None => false end
  | None => false
  end.

(** [for (const name of names) result[name] = await parseFlag(...)] *)
Fixpoint parseFlags_loop (env : Env) (flagSet : FlagMap) (argv : MinimistArgv)
  (names : list string) (result : JsObject) : M JsObject :=
  match names with
  | [] => ret result
  | name :: rest =>
      match Obj.get flagSet name with
      | Some flag =>
          v <- parseFlag env name flag argv ;;
          parseFlags_loop env flagSet argv rest (Obj.set result name v)
      | None =>
          throw (TypeError "Cannot read property 'default' of undefined")
      end
  end.

Definition givenFlagNames (argv : MinimistArgv) : list string :=
  filter (fun name => negb (String.eqb name "_") && negb (String.eqb name "$0"))
         (Object_keys argv).

Definition unknownFlags (flagSet : FlagMap) (argv : MinimistArgv)
  : list string :=
  filter (fun name => negb (Obj.includes (Obj.keys flagSet) name))
         (givenFlagNames argv).

Definition nonDefaultableFlagNames (flagSet : FlagMap) : list string :=
  filter (fun name => negb (has_default flagSet name)) (Obj.keys flagSet).

Definition defaultableFlagNames (flagSet : FlagMap) : list string :=
  filter (fun name => has_default flagSet name) (Obj.keys flagSet).

Definition parseFlagMap (env : Env) (flagSet : FlagMap) (argv : MinimistArgv)
  : M JsObject :=
  let unknown := unknownFlags flagSet argv in
  if Nat.ltb 0 (List.length unknown) then
    throw (CommandLineError
             ("Unknown flags given: "
                ++ Js.join ", " (map (fun name => "--" ++ name) unknown))
             (JArr (map JStr unknown)))
  else
    (* Defaults. Shouldn't be any errors, but better to get those out of the
       way before prompting. *)
    result <- parseFlags_loop env flagSet argv (defaultableFlagNames flagSet) [] ;;
    (* Prompt user for ungiven flags *)
    parseFlags_loop env flagSet argv (nonDefaultableFlagNames flagSet) result.

(** [for (let i = 0; i < argsArray.length; i++) results[i] = await parseArg(...)],
    from index [i] on. *)
Fixpoint parseArgs_loop (env : Env) (givenArgs : list JsValue) (i : nat)
  (remaining : ArgArray) (results : list JsValue) : M (list JsValue) :=
  match remaining with
  | [] => ret results
  | arg :: rest =>
      v <- parseArg env i arg givenArgs ;;
      parseArgs_loop env givenArgs (S i) rest (results +++ [v])
  end.

Definition parseArgsArray (env : Env) (argsArray : ArgArray)
  (argv : MinimistArgv) : M (list JsValue) :=
  let givenArgs := positional argv in
  if Nat.ltb (List.length argsArray) (List.length argsArray) then
    throw (CommandLineError
             ("Expected at most " ++ Js.dec_nat (List.length argsArray)
                ++ " args, but received " ++ Js.dec_nat (List.length givenArgs)
                ++ ": " ++ Js.join_opt ", " (map inspect (positional argv)))
             (JArr givenArgs))
  else parseArgs_loop env givenArgs 0 argsArray [].

(** [for (let i = 0; i < givenArgs.length; i++) results.push(...)], from
    index [i] on. *)
Fixpoint parseRest_loop (restType : Arg.t) (i : nat) (remaining : list JsValue)
  (results : list JsValue) : M (list JsValue) :=
  match remaining with
  | [] => ret results
  | given :: rest =>
      v <- tryParseValue ("Rest arg " ++ Js.dec_nat (i + 1)) (OfArg restType) given ;;
      parseRest_loop restType (S i) rest (results +++ [v])
  end.

Definition parseRest (restType : Arg.t) (givenArgs : list JsValue)
  : M (list JsValue) :=
  if Nat.eqb (List.length givenArgs) 0 then ret givenArgs
  else parseRest_loop restType 0 givenArgs [].

(* ===================================================================== *)
(** ** Commands and help text *)
(* ===================================================================== *)

(** A command with optional flags, or a command with positional arguments
    and optional flags. *)
Inductive Command : Type :=
| FlagsCommand (description : string) (flags : FlagMap)
    (run : JsObject -> Outcome unit)
| ArgsCommand (description : string) (flags : FlagMap)
    (args : ArgArray) (rest : Arg.t)
    (run : JsObject -> list JsValue -> list JsValue -> Outcome unit).

Definition command_description (c : Command) : string :=
  match c with
  | FlagsCommand d _ _ => d
  | ArgsCommand d _ _ _ _ => d
  end.

Definition command_flags (c : Command) : FlagMap :=
  match c with
  | FlagsCommand _ f _ => f
  | ArgsCommand _ f _ _ _ => f
  end.

Module Str.

Definition is_space (c : ascii) : bool :=
  let n := nat_of_ascii c in
  Nat.eqb n 32 || (Nat.leb 9 n && Nat.leb n 13).

Fixpoint trimLeft (s : string) : string :=
  match s with
  | EmptyString => ""
  | String c r => if is_space c then trimLeft r else s
  end.

Fixpoint trimRight (s : string) : string :=
  match s with
  | EmptyString => ""
  | String c r =>
      let r' := trimRight r in
      if is_space c && Text.is_empty r' then "" else String c r'
  end.

Definition trim (s : string) : string := trimRight (trimLeft s).

(** [s.split(sep)] for a one-character separator. *)
Fixpoint split (sep : ascii) (s : string) : list string :=
  match s with
  | EmptyString => [""]
  | String c r =>
      if Ascii.eqb c sep then "" :: split sep r
      else match split sep r with
           | h :: t => String c h :: t
           | [] => [String c ""]
           end
  end.

Definition lines (s : string) : list string := split (ascii_of_nat 10) s.

End Str.

Definition renderCompactTable (env : Env) (data : list (list string)) : string :=
  let rows := tl data in
  (* Shenanigans required to have multi-line descriptions. *)
  let finalRows :=
    flat_map
      (fun row =>
         let columnLines :=
           map (fun column =>
                  filter (fun l => negb (Text.is_empty l)) (Str.lines column))
               row in
         let maxLineLength :=
           fold_right Nat.max 0 (map (@List.length string) columnLines) in
         map (fun line => map (fun lines => nth line lines "") columnLines)
             (seq 0 maxLineLength))
      rows in
  Str.trimRight (table env finalRows).

Definition renderOptional (name : string) : string := "[" ++ name ++ "]".
Definition renderVar (name : string) : string := "<" ++ name ++ ">".

Definition is_some {A} (o : option A) : bool :=
  match o with Some _ => true | None => false end.

(** The usage words [getCommandUsage] collects for the flags. *)
Definition usage_of_flags (flagNameAndFlag : FlagMap) : list string * bool :=
  fold_left
    (fun (acc : list string * bool) (entry : string * Flag.t) =>
       let (usage, omitted) := acc in
       let (flagName, flag) := entry in
       let optional := is_some (Flag.default flag) || is_some (Flag.prompt flag) in
       let display := "--" ++ flagName ++ "=" ++ renderVar flagName in
       if negb optional then (usage +++ [display], omitted)
       else if optional && Nat.ltb (List.length flagNameAndFlag) 5 then
         (usage +++ [renderOptional display], omitted)
       else (usage, true))
    flagNameAndFlag ([], false).

(** The rows of the flag table: [for (name in command.flags) ...]. *)
Fixpoint flag_rows (flags : FlagMap) (names : list string)
  : M (list (list string)) :=
  match names with
  | [] => ret []
  | name :: rest =>
      match Obj.get flags name with
      | None => throw (TypeError "Cannot read property 'description' of undefined")
      | Some flag =>
          shown <-
            match Flag.default flag with
            | Some producer =>
                emit EvCallDefault ;;
                v <- lift (producer tt) ;;
                ret (Js.template (inspect v))
            | None => ret "Prompts."
            end ;;
          rows <- flag_rows flags rest ;;
          ret (["--" ++ name; Flag.description flag; shown] :: rows)
      end
  end.

Definition getCommandUsage (env : Env) (name : string) (command : Command)
  : M string :=
  let bold := chalk_bold env in
  let lines := [bold name; ""; Str.trim (command_description command)] in
  let (flagUsage, omittedOptionInUsage) := usage_of_flags (command_flags command) in
  let usage := [name] +++ flagUsage
                +++ (if omittedOptionInUsage then [renderOptional "flags"] else []) in
  let usage :=
    match command with
    | ArgsCommand _ _ args rest _ =>
        usage
         +++ map (fun arg => if is_some (Arg.prompt arg)
                             then renderOptional (renderVar (Arg.name arg))
                             else renderVar (Arg.name arg)) args
         +++ [renderOptional "--";
              renderOptional (renderVar (Arg.name rest) ++ " ...")]
    | FlagsCommand _ _ _ => usage
    end in
  let lines := lines +++ [""; "Usage:"; "  " ++ Js.join " " usage] in
  let lines :=
    match command with
    | ArgsCommand _ _ args rest _ =>
        let rows :=
          [map bold ["Arg"; "Description"]]
           +++ map (fun (ia : nat * Arg.t) =>
                     ["(" ++ Js.dec_nat (fst ia) ++ ") " ++ Arg.name (snd ia);
                      Arg.description (snd ia)])
                  (combine (seq 0 (List.length args)) args)
           +++ [[Arg.name rest ++ " ..."; Arg.description rest]] in
        lines +++ [""; "Arguments:"; renderCompactTable env rows]
    | FlagsCommand _ _ _ => lines
    end in
  if Nat.ltb 0 (List.length (Obj.keys (command_flags command))) then
    rows <- flag_rows (command_flags command) (Obj.keys (command_flags command)) ;;
    let rows := (map bold ["Flag"; "Description"; "Default"]) :: rows in
    ret (Js.join Js.newline
           (lines +++ [""; "Flags:"; renderCompactTable env rows; ""]))
  else ret (Js.join Js.newline lines).

(** [Boolean(argv.help || argv.h || argv["?"])] *)
Definition wantsHelp (argv : MinimistArgv) : bool :=
  Js.truthy (argv_get argv "help") || Js.truthy (argv_get argv "h")
  || Js.truthy (argv_get argv "?").

Definition runCommand (env : Env) (name : string) (command : Command)
  (argv : MinimistArgv) : M unit :=
  if wantsHelp argv then
    usage <- getCommandUsage env name command ;;
    emit (EvLog usage)
  else
    match command with
    | ArgsCommand _ flags args rest run =>
        a <- parseArgsArray env args argv ;;
        r <- parseRest rest (skipn (List.length a) (positional argv)) ;;
        f <- parseFlagMap env flags argv ;;
        emit (EvRun f (Some (a, r))) ;;
        lift (run f a r)
    | FlagsCommand _ flags run =>
        if Nat.ltb 0 (List.length (positional argv)) then
          throw (CommandLineError
                   ("Expected 0 args, but given "
                      ++ Js.dec_nat (List.length (positional argv)) ++ ": "
                      ++ Js.join_opt ", " (map inspect (positional argv)))
                   (JArr (positional argv)))
        else
          f <- parseFlagMap env flags argv ;;
          emit (EvRun f None) ;;
          lift (run f)
    end.

(* ===================================================================== *)
(** ** Subcommands *)
(* ===================================================================== *)

Definition CommandLoaders : Type := list (string * (unit -> Outcome Command)).

Definition loadCommand (commandName : string) (loaders : CommandLoaders)
  : M Command :=
  match Obj.get loaders commandName with
  | None =>
      throw (CommandLineError ("Command not found: " ++ commandName)
                              (JStr commandName))
  | Some loader => emit (EvLoad commandName) ;; lift (loader tt)
  end.

(** What [Promise.all] settles to once every loader has been started: the
    dictionary of the loaded commands, or the first rejection. *)
Fixpoint settle_all (started : list (string * Outcome Command))
  (result : list (string * Command)) : Outcome (list (string * Command)) :=
  match started with
  | [] => Returned result
  | (name, Returned c) :: rest => settle_all rest (Obj.set result name c)
  | (_, Thrown e) :: _ => Thrown e
  end.

Definition loadAllCommands (loaders : CommandLoaders)
  : M (list (string * Command)) :=
  (map (fun entry => EvLoad (fst entry)) loaders,
   settle_all (map (fun entry => (fst entry, snd entry tt)) loaders) []).

Definition getCommandLoadersUsage (env : Env) (name : string)
  (commandLoaders : CommandLoaders) : M string :=
  let lines :=
    [chalk_bold env name; ""; "Usage:";
     renderCompactTable env
       [["Usage"; ""];
        [name ++ " " ++ renderVar "command" ++ " " ++ renderOptional "options"
              ++ " " ++ renderOptional "args";
         "Run " ++ renderVar "command"];
        [name ++ " help " ++ renderVar "command" ++ Js.newline
              ++ name ++ " " ++ renderVar "command" ++ " --help";
         "Show help for " ++ renderVar "command"]];
     ""; "Commands:"] in
  allCommands <- loadAllCommands commandLoaders ;;
  let rows :=
    ["Command"; "Description"]
    :: map (fun (entry : string * Command) =>
              [fst entry;
               hd "" (Str.lines (Str.trim (command_description (snd entry))))])
           allCommands in
  ret (Js.join Js.newline (lines +++ [renderCompactTable env rows])).

(** The raw arguments that ask for a command's help: [{ _: [], help: true }]. *)
Definition help_request : MinimistArgv :=
  {| positional := []; named := [("help", JBool true)] |}.

(** [commandName === "help"] *)
Definition is_help_token (v : JsValue) : bool :=
  match v with
  | JStr s => String.eqb s "help"
  | _ => false
  end.

(** [commandName === undefined] *)
Definition is_undefined (v : JsValue) : bool :=
  match v with
  | JUndefined => true
  | _ => false
  end.

(** Try to load subcommands from a directory of commands.
    If a command is not found, display all commands. *)
Definition runLoaders (env : Env) (name : string)
  (commandLoaders : CommandLoaders) (argv : MinimistArgv) : M unit :=
  let commandName := nth 0 (positional argv) JUndefined in
  let args := tl (positional argv) in
  let childArgv := {| positional := args; named := named argv |} in
  if is_undefined commandName || is_help_token commandName
     || (wantsHelp argv && negb (Js.truthy commandName)) then
    wantHelpAbout <- lift (Js.toString (nth 0 args JUndefined)) ;;
    if negb (String.eqb wantHelpAbout "") then
      command <- loadCommand wantHelpAbout commandLoaders ;;
      runCommand env (name ++ " " ++ wantHelpAbout) command help_request
    else
      (* Ok, either `name help` or just `name`: show all the commands *)
      usage <- getCommandLoadersUsage env name commandLoaders ;;
      emit (EvLog usage)
  else
    (* Not doing help? Swell! Just run the command *)
    commandText <- lift (Js.toString commandName) ;;
    command <- loadCommand commandText commandLoaders ;;
    runCommand env (name ++ " " ++ Js.String_ commandName) command childArgv.



(* ===================================================================== *)
(** ** Validators ([src/validate.ts]) *)
(* ===================================================================== *)

(** [a === b] on primitive values.  Two arrays are the same only when they
    are the same object, which the embedding does not track: they compare
    unequal. *)
Definition strict_equal (a b : JsValue) : bool :=
  match a, b with
  | JUndefined, JUndefined => true
  | JNull, JNull => true
  | JBool x, JBool y => Bool.eqb x y
  | JNum x, JNum y => Z.eqb x y
  | JFloat x, JFloat y => String.eqb x y
  | JStr x, JStr y => String.eqb x y
  | _, _ => false
  end.

Module validate.
Definition Validator : Type := JsValue -> bool.

Definition string : Validator :=
  fun value => String.eqb (Js.typeof value) "string".
Definition number : Validator :=
  fun value => String.eqb (Js.typeof value) "number".
Definition boolean : Validator :=
  fun value => String.eqb (Js.typeof value) "boolean".

Definition oneOf (options : list JsValue) : Validator :=
  fun value => existsb (fun option => strict_equal value option) options.

Definition optional (fn : Validator) : Validator :=
  fun value =>
    match value with
    | JUndefined => true
    | _ => fn value
    end.
End validate.

(* ===================================================================== *)
(** ** The collaborators, as the specification describes them *)
(* ===================================================================== *)

(** Modelled from the spec: the prompting collaborator (inquirer is not among
    the sources).  For each line the user types it runs the question's
    input-filtering step, then the question's validation step on the filtered
    value; an accepted value is the answer, a rejected one makes it ask
    again.  [answers] are the lines the user is going to type; when they are
    used up the prompt is closed and the request fails. *)
Fixpoint scripted_prompt (answers : list JsValue) (q : Question)
  : Outcome JsValue :=
  match answers with
  | [] => Thrown (Error "prompt closed")
  | a :: rest =>
      match q_filter q a with
      | Thrown e => Thrown e
      | Returned v =>
          match q_validate q v with
          | Thrown e => Thrown e
          | Returned Accepted => Returned v
          | Returned (Rejected _) => scripted_prompt rest q
          end
      end
  end.

Module Tokenizer.

(** The text before and after the first [=], if there is one. *)
Fixpoint split_eq (s : string) : option (string * string) :=
  match s with
  | EmptyString => None
  | String c r =>
      if Ascii.eqb c "=" then Some ("", r)
      else match split_eq r with
           | Some (a, b) => Some (String c a, b)
           | None => None
           end
  end.

(** Modelled from the spec: a raw value is a string, a number or a boolean;
    the tokenizer (minimist, not among the sources) makes a number of a value
    that reads as one, by the test the framework copied from it. *)
Definition raw_value (text : string) : JsValue :=
  match isNumber (JStr text) with
  | Returned true => Number_ (JStr text)
  | _ => JStr text
  end.

Definition set_named (argv : MinimistArgv) (name : string) (v : JsValue)
  : MinimistArgv :=
  {| positional := positional argv; named := Obj.set (named argv) name v |}.

Definition push_positional (argv : MinimistArgv) (vs : list JsValue)
  : MinimistArgv :=
  {| positional := positional argv +++ vs; named := named argv |}.

(** Modelled from the spec: the tokenizing collaborator (minimist is not
    among the sources).  The raw-arguments contract: the non-flag tokens go,
    in order, to the list under the reserved key; every [--name=value] pair
    becomes a top-level key holding the value, and a [--name] without
    [=value] holds [true]; whatever follows a bare [--] is positional. *)
Fixpoint tokenize_from (tokens : list string) (argv : MinimistArgv)
  : MinimistArgv :=
  match tokens with
  | [] => argv
  | token :: rest =>
      match token with
      | String "-" (String "-" EmptyString) =>
          push_positional argv (map JStr rest)
      | String "-" (String "-" body) =>
          match split_eq body with
          | Some (name, value) =>
              tokenize_from rest (set_named argv name (raw_value value))
          | None =>
              tokenize_from rest (set_named argv body (JBool true))
          end
      | _ => tokenize_from rest (push_positional argv [raw_value token])
      end
  end.

Definition tokenize (tokens : list string) : MinimistArgv :=
  tokenize_from tokens {| positional := []; named := [] |}.

End Tokenizer.

(* ===================================================================== *)
(** ** The classified failures, and what is read off a trace *)
(* ===================================================================== *)

(** The sub-classifications of [CommandLineError], by the text each throw
    site writes. *)
Definition parse_failure (name : string) (value : JsValue) (error : JsError)
  : JsError :=
  CommandLineError
    (name ++ ": cannot parse " ++ Js.template (inspect value)
          ++ ": " ++ error_message error)
    value.

Definition invalid_value (name : string) (finalValue : JsValue) : JsError :=
  CommandLineError
    (name ++ ": invalid value: " ++ Js.template (inspect finalValue) ++ ")")
    finalValue.

Definition invalid_default (flagName : string) (defaulted : JsValue) : JsError :=
  CommandLineError
    ("--" ++ flagName ++ ": BUG: the default value was invalid: "
          ++ Js.template (inspect defaulted))
    defaulted.

Definition cannot_prompt (name : string) : JsError :=
  CommandLineError
    (name ++ ": Required but not given (and cannot prompt in non-iteractive mode)")
    (JStr name).

Definition invalid_prompted (name : string) (value : JsValue) : JsError :=
  CommandLineError
    (name ++ ": prompting returned invalid value: "
          ++ Js.template (inspect value))
    value.

Definition unknown_flags_given (unknown : list string) : JsError :=
  CommandLineError
    ("Unknown flags given: "
       ++ Js.join ", " (map (fun name => "--" ++ name) unknown))
    (JArr (map JStr unknown)).

Definition expected_no_args (given : list JsValue) : JsError :=
  CommandLineError
    ("Expected 0 args, but given " ++ Js.dec_nat (List.length given) ++ ": "
       ++ Js.join_opt ", " (map inspect given))
    (JArr given).

(** How a token shows in a [map(inspect).join(", ")]. *)
Definition shown (token : JsValue) : string :=
  match inspect token with Some s => s | None => "" end.

(** [text] occurs somewhere in [message]. *)
Definition mentions (message text : string) : Prop :=
  exists before after, message = before ++ text ++ after.

Definition is_prompt_event (e : Event) : bool :=
  match e with
  | EvInteractive | EvCallPrompt _ | EvAsk _ => true
  | _ => false
  end.

Definition is_default_event (e : Event) : bool :=
  match e with
  | EvCallDefault => true
  | _ => false
  end.

Definition is_parse_event (e : Event) : bool :=
  match e with
  | EvCallParse _ => true
  | _ => false
  end.

Definition is_validate_event (e : Event) : bool :=
  match e with
  | EvCallValidate _ => true
  | _ => false
  end.

Definition is_flag_event (e : Event) : bool :=
  match e with
  | EvParseFlag _ => true
  | _ => false
  end.

(** The flags whose resolution a trace starts, in order. *)
Definition flag_events (t : list Event) : list string :=
  flat_map (fun e => match e with EvParseFlag n => [n] | _ => [] end) t.

(** Run the computations one after the other, stopping at the first
    failure, and collect what they return. *)
Fixpoint in_sequence {A} (ms : list (M A)) : M (list A) :=
  match ms with
  | [] => ret []
  | m :: rest =>
      v <- m ;;
      vs <- in_sequence rest ;;
      ret (v :: vs)
  end.

(** The elements of a list with their indices from [i] on. *)
Fixpoint indexed_from {A} (i : nat) (xs : list A) : list (nat * A) :=
  match xs with
  | [] => []
  | x :: rest => (i, x) :: indexed_from (S i) rest
  end.

(** What the prompt path obtains before its final validation: the answer of
    the custom [prompt] function when the spec has one, else the answer of
    the prompting collaborator to the constructed question. *)
Definition prompted (env : Env) (name : string) (flag : ArgOrFlag)
  : Outcome JsValue :=
  match spec_prompt flag with
  | Some custom =>
      custom {| pa_prompt := createPromptModule env;
                pa_question := default_question name flag |}
  | None => createPromptModule env (default_question name flag)
  end.


(** Positional resolution in the specification's words: the declared specs
    one after the other, the spec at position [i] against the token at index
    [i] of the raw positional sequence. *)
Definition resolve_positionals (env : Env) (args : ArgArray)
  (given : list JsValue) : M (list JsValue) :=
  in_sequence
    (map (fun ia => parseArg env (fst ia) (snd ia) given) (indexed_from 0 args)).

(** Rest resolution in the specification's words: every remaining token on
    its own, parsed and validated against the single rest spec. *)
Definition resolve_rest (rest : Arg.t) (remaining : list JsValue)
  : M (list JsValue) :=
  in_sequence
    (map (fun it =>
            tryParseValue ("Rest arg " ++ Js.dec_nat (fst it + 1))
                          (OfArg rest) (snd it))
         (indexed_from 0 remaining)).

(* ===================================================================== *)
(** ** Flag shortcuts and the process entrypoint *)
(* ===================================================================== *)



(** What [logger.error] is given: a message, or an error object. *)
Inductive Logged : Type :=
| LoggedMessage (message : string)
| LoggedError (error : JsError).

(** What a start of the process amounts to: what [main] did, what was
    logged as an error, and the exit code that was scheduled, if any. *)
Record ProcessRun : Type := {
  main_trace : list Event;
  logged : list Logged;
  exit_code : option nat
}.

(** If [module] is the NodeJS entrypoint ([is_main]): call [main] with the
    last part of the module's file name and the tokenized [process.argv],
    and exit if it throws an error. *)
Definition startIfMain (is_main : bool) (filename : string)
  (process_argv : list string) (main : string -> MinimistArgv -> M unit)
  : ProcessRun :=
  if negb is_main then
    {| main_trace := []; logged := []; exit_code := None |}
  else
    let filenameParts := Str.split "/" filename in
    let lastPart := last filenameParts "" in
    let name := if Text.is_empty lastPart then "(unknown command)"
                else lastPart in
    let argv := Tokenizer.tokenize process_argv in
    match main name argv with
    | (t, Returned _) =>
        {| main_trace := t; logged := []; exit_code := None |}
    | (t, Thrown error) =>
        (* Hide stacktraces for CommandLineError *)
        if is_CommandLineError error then
          {| main_trace := t;
             logged := [LoggedMessage (error_message error)];
             exit_code := Some 2 |}
        else
          {| main_trace := t;
             logged := [LoggedError error];
             exit_code := Some 1 |}
    end.

(** If [module] is the NodeJS entrypoint: wait for [main] to finish, then
    exit 0.  The exit is scheduled by the wrapped [main] once [main] has
    returned, so not when it threw. *)
Definition runThenExitIfMain (is_main : bool) (filename : string)
  (process_argv : list string) (main : string -> MinimistArgv -> M unit)
  : ProcessRun :=
  let started := startIfMain is_main filename process_argv main in
  if is_main then
    match exit_code started with
    | None => {| main_trace := main_trace started;
                 logged := logged started;
                 exit_code := Some 0 |}
    | Some _ => started
    end
  else started.

(* ===================================================================== *)
(** ** More that is read off a run *)
(* ===================================================================== *)

(** The rows [renderCompactTable] hands to [table]: the data without its
    first row, every row spread over as many rows as its tallest cell has
    lines that are not empty. *)
Definition compact_rows (data : list (list string)) : list (list string) :=
  flat_map
    (fun row =>
       let columnLines :=
         map (fun column =>
                filter (fun l => negb (Text.is_empty l)) (Str.lines column))
             row in
       let maxLineLength :=
         fold_right Nat.max 0 (map (@List.length string) columnLines) in
       map (fun line => map (fun lines => nth line lines "") columnLines)
           (seq 0 maxLineLength))
    (tl data).

(** The character occurs in the text. *)
Fixpoint has_char (c : ascii) (s : string) : bool :=
  match s with
  | EmptyString => false
  | String x r => Ascii.eqb x c || has_char c r
  end.

(** [flag.default || flag.prompt], as the usage line asks. *)
Definition is_optional (flag : Flag.t) : bool :=
  is_some (Flag.default flag) || is_some (Flag.prompt flag).

(** How the usage line shows a flag. *)
Definition usage_display (flagName : string) : string :=
  "--" ++ flagName ++ "=" ++ renderVar flagName.

Definition is_resolution_event (e : Event) : bool :=
  match e with
  | EvParseFlag _ | EvParseArg _ | EvCallParse _ | EvCallValidate _
  | EvCallDefault | EvInteractive | EvCallPrompt _ | EvAsk _ => true
  | _ => false
  end.

(** The user, or the custom prompt function, is asked for a value. *)
Definition is_ask_event (e : Event) : bool :=
  match e with
  | EvCallPrompt _ | EvAsk _ => true
  | _ => false
  end.

Definition is_run_event (e : Event) : bool :=
  match e with
  | EvRun _ _ => true
  | _ => false
  end.

(** An event of the resolution pipeline which, away from a terminal, is not
    a question to anybody. *)
Definition resolution_only (env : Env) (e : Event) : Prop :=
  is_resolution_event e = true /\ (isTTY env = false -> is_ask_event e = false).

(** Every declared flag has a value, and the value satisfies the flag's
    validator. *)
Definition flags_resolved (flagSet : FlagMap) (result : JsObject) : Prop :=
  forall name flag,
    Obj.get flagSet name = Some flag ->
    exists v, Obj.get result name = Some v /\ Flag.validate flag v = true.

(** What a handler is given is what its command declares: validated flags;
    for a command with positional arguments, one validated value per
    declared position and the validated remaining tokens; for a flags-only
    command, no positional token at all. *)
Definition well_resolved (command : Command) (argv : MinimistArgv)
  (flags : JsObject) (positionals : option (list JsValue * list JsValue))
  : Prop :=
  flags_resolved (command_flags command) flags
  /\ match command, positionals with
     | FlagsCommand _ _ _, None => positional argv = []
     | ArgsCommand _ _ args rest _, Some (a, r) =>
         Forall2 (fun arg v => Arg.validate arg v = true) args a
         /\ Forall (fun v => Arg.validate rest v = true) r
         /\ List.length r = List.length (positional argv) - List.length args
     | _, _ => False
     end.

(** The resolution of a flag or of a positional argument starts. *)
Definition is_entry_event (e : Event) : bool :=
  match e with
  | EvParseFlag _ | EvParseArg _ => true
  | _ => false
  end.

Definition is_arg_event (e : Event) : bool :=
  match e with
  | EvParseArg _ => true
  | _ => false
  end.

(** The same collaborators, with another prompt function. *)
Definition with_prompt (env : Env) (prompt : PromptModule) : Env :=
  {| isTTY := isTTY env;
     createPromptModule := prompt;
     chalk_bold := chalk_bold env;
     table := table env |}.

(** A primitive value: anything but an array. *)
Definition is_primitive (v : JsValue) : bool :=
  match v with
  | JArr _ => false
  | _ => true
  end.

(** The values on which [strict_equal] is the language's [===]: [undefined],
    [null], the booleans, the integers and the strings.  (A fractional number
    is kept as its text and an array without its identity.) *)
Definition is_exact (v : JsValue) : bool :=
  match v with
  | JArr _ | JFloat _ => false
  | _ => true
  end.

(* ===================================================================== *)
(** ** Sample declarations *)
(* ===================================================================== *)

Module Sample.

Definition quiet_env : Env :=
  {| isTTY := false;
     createPromptModule := scripted_prompt [];
     chalk_bold := fun s => s;
     table := fun rows => Js.join Js.newline (map (Js.join " ") rows) |}.

(** A terminal at which the user is going to type [answers]. *)
Definition terminal (answers : list JsValue) : Env :=
  {| isTTY := true;
     createPromptModule := scripted_prompt answers;
     chalk_bold := fun s => s;
     table := fun rows => Js.join Js.newline (map (Js.join " ") rows) |}.

(** The flags of the README's [greet] command. *)
Definition name_flag : Flag.t :=
  {| Flag.description := "What name should we greet?";
     Flag.validate := validate.string;
     Flag.default := None; Flag.prompt := None; Flag.parse := None |}.

Definition exuberant_flag : Flag.t :=
  {| Flag.description := "Are we excited?";
     Flag.validate := validate.boolean;
     Flag.default := Some (fun _ => Returned (JBool false));
     Flag.prompt := None; Flag.parse := None |}.

Definition greet_flags : FlagMap :=
  [("name", name_flag); ("exuberant", exuberant_flag)].

Definition greet : Command :=
  FlagsCommand "Say hello" greet_flags (fun _ => Returned tt).

Definition text_arg (name : string) : Arg.t :=
  {| Arg.name := name; Arg.description := "some text";
     Arg.validate := validate.string;
     Arg.prompt := None; Arg.parse := None |}.

(** A flag whose custom prompt answers with a number although the flag
    wants text. *)
Definition careless_flag : Flag.t :=
  {| Flag.description := "a name";
     Flag.validate := validate.string;
     Flag.default := None;
     Flag.prompt := Some (fun _ => Returned (JNum 7));
     Flag.parse := None |}.





Definition no_arguments : MinimistArgv := {| positional := []; named := [] |}.






End Sample.

(* ===================================================================== *)
(** * Properties *)
(* ===================================================================== *)
Example defaultParser_hex : defaultParser (JStr "0x1F") = Returned (JNum 31).
Proof. reflexivity. Qed.

Example defaultParser_exp : defaultParser (JStr "-1.50e1") = Returned (JNum (-15)).
Proof. reflexivity. Qed.

Example defaultParser_frac : defaultParser (JStr ".5") = Returned (JFloat ".5").
Proof. reflexivity. Qed.

Example defaultParser_true : defaultParser (JStr "true") = Returned (JBool true).
Proof. reflexivity. Qed.

Example defaultParser_text : defaultParser (JStr "1x") = Returned (JStr "1x").
Proof. reflexivity. Qed.

Example defaultParser_undefined :
  defaultParser JUndefined
  = Thrown (TypeError "Cannot read property 'toString' of undefined").
Proof. reflexivity. Qed.

Example split_lines : Str.split "," "a,,b" = ["a"; ""; "b"].
Proof. reflexivity. Qed.

Example stringify_nested :
  Js.stringify (JArr [JNum 1; JArr [JStr "a"]; JUndefined])
  = Some ("[" ++ Js.newline ++ "  1," ++ Js.newline
          ++ "  [" ++ Js.newline ++ "    " ++ Js.quote "a" ++ Js.newline ++ "  ],"
          ++ Js.newline ++ "  null" ++ Js.newline ++ "]").
Proof. reflexivity. Qed.

Example greet_given :
  runCommand Sample.quiet_env "greet" Sample.greet
    {| positional := []; named := [("name", JStr "Ada")] |}
  = ([EvParseFlag "exuberant"; EvCallDefault; EvCallValidate (JBool false);
      EvParseFlag "name"; EvCallValidate (JStr "Ada");
      EvRun [("exuberant", JBool false); ("name", JStr "Ada")] None],
     Returned tt).
Proof. reflexivity. Qed.

Example greet_tokenized :
  Tokenizer.tokenize ["greet"; "--name=Ada"; "--n=5"; "--loud"]
  = {| positional := [JStr "greet"];
       named := [("name", JStr "Ada"); ("n", JNum 5); ("loud", JBool true)] |}.
Proof. reflexivity. Qed.

(* --------------------------------------------------------------------- *)
(** ** Computations *)
(* --------------------------------------------------------------------- *)

Section Computations.
Context {A B C : Type}.

Lemma bind_ret_l (a : A) (f : A -> M B) : bind (ret a) f = f a.
Proof. unfold bind, ret. destruct (f a); reflexivity. Qed.

Lemma bind_throw_l (e : JsError) (f : A -> M B) : bind (throw e) f = throw e.
Proof. reflexivity. Qed.

Lemma bind_lift_returned (a : A) (f : A -> M B) :
  bind (lift (Returned a)) f = f a.
Proof. apply bind_ret_l. Qed.

Lemma bind_lift_thrown (e : JsError) (f : A -> M B) :
  bind (lift (Thrown e)) f = throw e.
Proof. reflexivity. Qed.

Lemma bind_assoc (m : M A) (f : A -> M B) (g : B -> M C) :
  bind (bind m f) g = bind m (fun a => bind (f a) g).
Proof.
  destruct m as [t [a | e]]; simpl; [ | reflexivity ].
  destruct (f a) as [t1 [b | e1]]; simpl; [ | reflexivity ].
  destruct (g b) as [t2 o]. now rewrite app_assoc.
Qed.

Lemma trace_bind (m : M A) (f : A -> M B) :
  trace (bind m f)
  = trace m +++ match outcome m with
                | Returned a => trace (f a)
                | Thrown _ => []
                end.
Proof.
  destruct m as [t [a | e]]; simpl.
  - destruct (f a); reflexivity.
  - unfold trace; simpl. now rewrite app_nil_r.
Qed.

Lemma outcome_bind (m : M A) (f : A -> M B) :
  outcome (bind m f)
  = match outcome m with
    | Returned a => outcome (f a)
    | Thrown e => Thrown e
    end.
Proof.
  destruct m as [t [a | e]]; simpl; [ | reflexivity ].
  destruct (f a); reflexivity.
Qed.

Lemma surjective_run (m : M A) : m = (trace m, outcome m).
Proof. now destruct m. Qed.
End Computations.

Lemma bind_emit {B} (ev : Event) (k : M B) :
  (emit ev ;; k) = (ev :: trace k, outcome k).
Proof. unfold bind, emit. destruct k; reflexivity. Qed.


Lemma bind_ret_r {A} (m : M A) : bind m ret = m.
Proof.
  destruct m as [t [a | e]]; simpl; [ | reflexivity ].
  now rewrite app_nil_r.
Qed.

(* --------------------------------------------------------------------- *)
(** ** Text *)
(* --------------------------------------------------------------------- *)

Lemma append_assoc (a b c : string) : (a ++ b) ++ c = a ++ (b ++ c).
Proof. induction a as [ | x a IH]; simpl; [ reflexivity | now rewrite IH ]. Qed.

Lemma append_nil_r (a : string) : a ++ "" = a.
Proof. induction a as [ | x a IH]; simpl; [ reflexivity | now rewrite IH ]. Qed.

Lemma append_inj_l (p a b : string) : p ++ a = p ++ b -> a = b.
Proof.
  induction p as [ | x p IH]; simpl; intro H; [ exact H | ].
  injection H as H. now apply IH.
Qed.

Lemma mentions_refl (text : string) : mentions text text.
Proof. exists "", "". simpl. now rewrite append_nil_r. Qed.

Lemma mentions_prepend (p message text : string) :
  mentions message text -> mentions (p ++ message) text.
Proof.
  intros [b [a ->]]. exists (p ++ b), a. now rewrite append_assoc.
Qed.

Lemma mentions_append (message s text : string) :
  mentions message text -> mentions (message ++ s) text.
Proof.
  intros [b [a ->]]. exists b, (a ++ s). now rewrite !append_assoc.
Qed.

(** Every element of a joined list occurs in the joined text. *)
Lemma join_mentions (sep : string) (xs : list string) (x : string) :
  In x xs -> mentions (Js.join sep xs) x.
Proof.
  unfold Js.join.
  induction xs as [ | y [ | z rest] IH]; simpl; intros Hin.
  - contradiction.
  - destruct Hin as [-> | []]. apply mentions_refl.
  - destruct Hin as [-> | Hin].
    + apply mentions_append, mentions_refl.
    + apply mentions_prepend, mentions_prepend. now apply IH.
Qed.

(* --------------------------------------------------------------------- *)
(** ** Too many positional arguments for a flags-only command *)
(* --------------------------------------------------------------------- *)

Lemma join_opt_mentions (given : list JsValue) (token : JsValue) :
  In token given -> mentions (Js.join_opt ", " (map inspect given)) (shown token).
Proof.
  intro Hin. unfold Js.join_opt. apply join_mentions.
  rewrite map_map. apply (in_map (fun x => shown x)) in Hin. exact Hin.
Qed.

(** C8: A flags-only command that is given positional tokens (and no help
    flag) fails with the "Expected 0 args" error, which carries the tokens and
    whose message shows every one of them; nothing has happened before the
    failure: no flag was resolved and the handler was not invoked. *)
Theorem runCommand_FlagsCommand_expects_no_args :
  forall env name description flags run argv,
    wantsHelp argv = false ->
    positional argv <> [] ->
    runCommand env name (FlagsCommand description flags run) argv
    = ([], Thrown (expected_no_args (positional argv)))
    /\ forall token,
         In token (positional argv) ->
         mentions (error_message (expected_no_args (positional argv)))
                  (shown token).
Proof.
  intros env name description flags run argv Hhelp Hgiven. split.
  - unfold runCommand. rewrite Hhelp.
    destruct (positional argv) as [ | token rest]; [ contradiction | ].
    reflexivity.
  - intros token Hin. cbv [expected_no_args error_message].
    do 3 apply mentions_prepend. now apply join_opt_mentions.
Qed.

Lemma runCommand_FlagsCommand_expects_no_args_witness :
  let argv := {| positional := [JStr "one"; JNum 2]; named := [] |} in
  wantsHelp argv = false
  /\ positional argv <> []
  /\ runCommand Sample.quiet_env "greet" Sample.greet argv
     = ([], Thrown (expected_no_args [JStr "one"; JNum 2])).
Proof.
  split; [ reflexivity | split; [ discriminate | ] ].
  apply (runCommand_FlagsCommand_expects_no_args
           Sample.quiet_env "greet" "Say hello" Sample.greet_flags
           (fun _ => Returned tt)
           {| positional := [JStr "one"; JNum 2]; named := [] |});
    [ reflexivity | discriminate ].
Defined.

(* --------------------------------------------------------------------- *)
(** ** Unknown flags *)
(* --------------------------------------------------------------------- *)

Lemma includes_In (xs : list string) (x : string) :
  Obj.includes xs x = true <-> In x xs.
Proof.
  unfold Obj.includes. rewrite existsb_exists. split.
  - intros [y [Hin Heq]]. apply String.eqb_eq in Heq. now subst.
  - intro Hin. exists x. split; [ exact Hin | apply String.eqb_refl ].
Qed.

Lemma unknownFlags_spec (flagSet : FlagMap) (argv : MinimistArgv) (name : string) :
  In name (unknownFlags flagSet argv)
  <-> In name (Object_keys argv) /\ name <> "_" /\ name <> "$0"
      /\ ~ In name (Obj.keys flagSet).
Proof.
  unfold unknownFlags, givenFlagNames. rewrite !filter_In.
  rewrite andb_true_iff, !negb_true_iff, !String.eqb_neq.
  rewrite <- not_true_iff_false, includes_In. tauto.
Qed.

(** C4: When some key of the raw arguments other than ["_"] and ["$0"] is not
    a declared flag, [parseFlagMap] fails at once (no flag has been resolved)
    with one unknown-flag error; the names it reports are exactly the given
    keys, other than the two reserved ones, that are not declared, and each
    of them is in the details and shows in the message. *)
Theorem parseFlagMap_unknown_flags :
  forall env flagSet argv,
    (exists name, In name (Object_keys argv) /\ name <> "_" /\ name <> "$0"
                  /\ ~ In name (Obj.keys flagSet)) ->
    parseFlagMap env flagSet argv
    = ([], Thrown (unknown_flags_given (unknownFlags flagSet argv)))
    /\ (forall name,
          In name (unknownFlags flagSet argv)
          <-> In name (Object_keys argv) /\ name <> "_" /\ name <> "$0"
              /\ ~ In name (Obj.keys flagSet))
    /\ (forall name,
          In name (unknownFlags flagSet argv) ->
          mentions (error_message (unknown_flags_given (unknownFlags flagSet argv)))
                   ("--" ++ name)).
Proof.
  intros env flagSet argv [bad Hbad].
  apply unknownFlags_spec in Hbad.
  split; [ | split ].
  - unfold parseFlagMap.
    destruct (unknownFlags flagSet argv) as [ | u rest]; [ contradiction | ].
    reflexivity.
  - intro name. apply unknownFlags_spec.
  - intros name Hin. cbv [unknown_flags_given error_message].
    apply mentions_prepend, join_mentions.
    apply (in_map (fun n => "--" ++ n)) in Hin. exact Hin.
Qed.

Lemma parseFlagMap_unknown_flags_witness :
  let argv := {| positional := [];
                 named := [("name", JStr "x"); ("extra1", JNum 1);
                           ("$0", JStr "cli"); ("extra2", JNum 2)] |} in
  (exists name, In name (Object_keys argv) /\ name <> "_" /\ name <> "$0"
                /\ ~ In name (Obj.keys [("name", Sample.name_flag)]))
  /\ parseFlagMap Sample.quiet_env [("name", Sample.name_flag)] argv
     = ([], Thrown (CommandLineError "Unknown flags given: --extra1, --extra2"
                                     (JArr [JStr "extra1"; JStr "extra2"]))).
Proof.
  assert (H : exists name,
             In name (Object_keys
                        {| positional := [];
                           named := [("name", JStr "x"); ("extra1", JNum 1);
                                     ("$0", JStr "cli"); ("extra2", JNum 2)] |})
             /\ name <> "_" /\ name <> "$0"
             /\ ~ In name (Obj.keys [("name", Sample.name_flag)])).
  { exists "extra1". simpl. repeat split; try discriminate; auto.
    intros [Heq | []]. discriminate. }
  split; [ exact H | ].
  exact (proj1 (parseFlagMap_unknown_flags Sample.quiet_env
                  [("name", Sample.name_flag)] _ H)).
Defined.

(* --------------------------------------------------------------------- *)
(** ** The declared positional arguments *)
(* --------------------------------------------------------------------- *)

Lemma parseArg_depends_on_index env i arg (given given' : list JsValue) :
  nth_error given i = nth_error given' i ->
  parseArg env i arg given = parseArg env i arg given'.
Proof. unfold parseArg. now intros ->. Qed.

(* --------------------------------------------------------------------- *)
(** ** Loops as sequences *)
(* --------------------------------------------------------------------- *)

Lemma bind_ext_returned {A B} (m : M A) (f g : A -> M B) :
  (forall a, outcome m = Returned a -> f a = g a) -> bind m f = bind m g.
Proof.
  intro H. destruct m as [t [a | e]]; simpl; [ | reflexivity ].
  now rewrite (H a eq_refl).
Qed.

Lemma bind_ext {A B} (m : M A) (f g : A -> M B) :
  (forall a, f a = g a) -> bind m f = bind m g.
Proof. intro H. apply bind_ext_returned. intros a _. apply H. Qed.

Lemma indexed_from_length {A} (xs : list A) :
  forall i, List.length (indexed_from i xs) = List.length xs.
Proof. induction xs as [ | x xs IH]; intro i; simpl; [ | rewrite IH ]; reflexivity. Qed.

Lemma indexed_from_nth {A} (xs : list A) :
  forall i k, nth_error (indexed_from i xs) k
              = option_map (fun x => (i + k, x)) (nth_error xs k).
Proof.
  induction xs as [ | x xs IH]; intros i [ | k]; simpl; try reflexivity.
  - now rewrite Nat.add_0_r.
  - rewrite IH. now rewrite Nat.add_succ_r.
Qed.

Lemma indexed_from_In {A} (xs : list A) :
  forall i k x, In (k, x) (indexed_from i xs) -> i <= k < i + List.length xs.
Proof.
  induction xs as [ | y xs IH]; intros i k x; simpl; [ contradiction | ].
  intros [Heq | Hin].
  - injection Heq as <- _. lia.
  - apply IH in Hin. lia.
Qed.

Lemma in_sequence_outcome {A} (ms : list (M A)) :
  match outcome (in_sequence ms) with
  | Returned vs => List.length vs = List.length ms
  | Thrown e => exists k m, nth_error ms k = Some m /\ outcome m = Thrown e
  end.
Proof.
  induction ms as [ | m ms IH]; simpl; [ reflexivity | ].
  rewrite outcome_bind. destruct (outcome m) as [v | e] eqn:Hm.
  - rewrite outcome_bind. destruct (outcome (in_sequence ms)) as [vs | e].
    + simpl. now rewrite IH.
    + destruct IH as [k [m' [Hk Hm']]]. exists (S k), m'. now split.
  - exists 0, m. now split.
Qed.

Lemma in_sequence_trace {A} (P : Event -> Prop) (ms : list (M A)) :
  (forall m, In m ms -> Forall P (trace m)) ->
  Forall P (trace (in_sequence ms)).
Proof.
  induction ms as [ | m ms IH]; simpl; intro H; [ constructor | ].
  rewrite trace_bind. apply Forall_app. split; [ apply H; now left | ].
  destruct (outcome m); [ | constructor ].
  rewrite trace_bind. apply Forall_app. split; [ apply IH; auto | ].
  destruct (outcome (in_sequence ms)); constructor.
Qed.

Lemma parseArgs_loop_in_sequence env (given : list JsValue) :
  forall remaining i results,
    parseArgs_loop env given i remaining results
    = (vs <- in_sequence
               (map (fun ia => parseArg env (fst ia) (snd ia) given)
                    (indexed_from i remaining)) ;;
       ret (results +++ vs)).
Proof.
  induction remaining as [ | arg rest IH]; intros i results;
    cbn [parseArgs_loop indexed_from map in_sequence fst snd].
  - rewrite bind_ret_l. now rewrite app_nil_r.
  - rewrite bind_assoc. apply bind_ext. intro v.
    rewrite IH, bind_assoc. apply bind_ext. intro vs.
    rewrite bind_ret_l. now rewrite <- app_assoc.
Qed.

Lemma parseRest_loop_in_sequence (restType : Arg.t) :
  forall remaining i results,
    parseRest_loop restType i remaining results
    = (vs <- in_sequence
               (map (fun it =>
                       tryParseValue ("Rest arg " ++ Js.dec_nat (fst it + 1))
                                     (OfArg restType) (snd it))
                    (indexed_from i remaining)) ;;
       ret (results +++ vs)).
Proof.
  induction remaining as [ | given rest IH]; intros i results;
    cbn [parseRest_loop indexed_from map in_sequence fst snd].
  - rewrite bind_ret_l. now rewrite app_nil_r.
  - rewrite bind_assoc. apply bind_ext. intro v.
    rewrite IH, bind_assoc. apply bind_ext. intro vs.
    rewrite bind_ret_l. now rewrite <- app_assoc.
Qed.

Lemma parseArgsArray_resolve_positionals env argsArray argv :
  parseArgsArray env argsArray argv
  = resolve_positionals env argsArray (positional argv).
Proof.
  unfold parseArgsArray, resolve_positionals.
  rewrite Nat.ltb_irrefl, parseArgs_loop_in_sequence.
  apply bind_ret_r.
Qed.

Lemma parseRest_resolve_rest restType givenArgs :
  parseRest restType givenArgs = resolve_rest restType givenArgs.
Proof.
  unfold parseRest, resolve_rest.
  destruct givenArgs as [ | given rest]; [ reflexivity | ].
  cbn [List.length Nat.eqb]. rewrite parseRest_loop_in_sequence.
  apply bind_ret_r.
Qed.

(** C10: The "Expected at most ... args" branch of [parseArgsArray] is never
    taken: for every declared array and every raw positional list the
    function is its resolution loop; tokens beyond the declared positions
    have no influence on it; and when it fails, the failure is that of
    resolving one of the declared positions. *)
Theorem parseArgsArray_never_rejects_surplus :
  forall env argsArray argv,
    parseArgsArray env argsArray argv
    = parseArgs_loop env (positional argv) 0 argsArray []
    /\ parseArgsArray env argsArray argv
       = parseArgsArray env argsArray
           {| positional := firstn (List.length argsArray) (positional argv);
              named := named argv |}
    /\ match outcome (parseArgsArray env argsArray argv) with
       | Returned results => List.length results = List.length argsArray
       | Thrown e =>
           exists i arg,
             nth_error argsArray i = Some arg
             /\ outcome (parseArg env i arg (positional argv)) = Thrown e
       end.
Proof.
  intros env argsArray argv. split; [ | split ].
  - unfold parseArgsArray. now rewrite Nat.ltb_irrefl.
  - rewrite !parseArgsArray_resolve_positionals. unfold resolve_positionals.
    f_equal. apply map_ext_in. intros [k arg] Hin. simpl.
    apply parseArg_depends_on_index.
    apply indexed_from_In in Hin. rewrite nth_error_firstn.
    destruct (Nat.ltb_spec k (List.length argsArray)); [ reflexivity | lia ].
  - rewrite parseArgsArray_resolve_positionals. unfold resolve_positionals.
    pose proof (in_sequence_outcome
                  (map (fun ia => parseArg env (fst ia) (snd ia) (positional argv))
                       (indexed_from 0 argsArray))) as H.
    destruct (outcome (in_sequence _)) as [vs | e].
    + now rewrite H, length_map, indexed_from_length.
    + destruct H as [k [m [Hk Hm]]].
      rewrite nth_error_map, indexed_from_nth in Hk.
      destruct (nth_error argsArray k) as [arg | ] eqn:Harg; [ | discriminate ].
      simpl in Hk. injection Hk as <-. exists k, arg. now split.
Qed.

(* --------------------------------------------------------------------- *)
(** ** Positional arguments and the rest *)
(* --------------------------------------------------------------------- *)

Lemma tryParseValue_trace name flag value :
  Forall (fun e => is_parse_event e || is_validate_event e = true)
         (trace (tryParseValue name flag value)).
Proof.
  unfold tryParseValue.
  destruct (spec_parse flag) as [parse | ].
  - rewrite bind_assoc, bind_emit. cbn [trace fst].
    constructor; [ reflexivity | ].
    destruct (parse value) as [v | error].
    + rewrite bind_ret_l, bind_emit. cbn [trace fst].
      constructor; [ reflexivity | ].
      destruct (spec_validate flag v); constructor.
    + constructor.
  - rewrite bind_ret_l, bind_emit. cbn [trace fst].
    constructor; [ reflexivity | ].
    destruct (spec_validate flag value); constructor.
Qed.

Lemma parseArg_given env i arg given token :
  nth_error given i = Some token ->
  Arg.parse arg = None ->
  parseArg env i arg given
  = ([EvParseArg i; EvCallValidate token],
     if Arg.validate arg token then Returned token
     else Thrown (invalid_value
                    ("arg " ++ Js.dec_nat (i + 1) ++ " (" ++ Arg.name arg ++ ")")
                    token)).
Proof.
  intros Hnth Hparse. unfold parseArg, tryParseValue. rewrite Hnth.
  cbn [spec_parse spec_validate]. rewrite Hparse.
  rewrite bind_ret_l, !bind_emit. cbn [trace outcome fst snd].
  destruct (Arg.validate arg token); reflexivity.
Qed.

(** C6: Without a help flag, a command with positional arguments resolves
    the declared specs one after the other, spec [i] against token [i]; then
    the tokens after the declared positions, each on its own against the rest
    spec by parsing and validating only (nothing but parse and validate calls
    happen, and an empty remainder gives the empty list with no call at
    all); then the flags; and then invokes the handler with the three
    results.  A given token whose spec has no [parse] is validated and
    passed on as it is. *)
Theorem runCommand_ArgsCommand_resolution :
  forall env name description flags args rest run argv,
    wantsHelp argv = false ->
    runCommand env name (ArgsCommand description flags args rest run) argv
    = (a <- resolve_positionals env args (positional argv) ;;
       r <- resolve_rest rest (skipn (List.length args) (positional argv)) ;;
       f <- parseFlagMap env flags argv ;;
       emit (EvRun f (Some (a, r))) ;;
       lift (run f a r))
    /\ Forall (fun e => is_parse_event e || is_validate_event e = true)
              (trace (resolve_rest rest
                        (skipn (List.length args) (positional argv))))
    /\ resolve_rest rest [] = ([], Returned [])
    /\ (forall i arg token,
          nth_error args i = Some arg ->
          nth_error (positional argv) i = Some token ->
          Arg.parse arg = None ->
          parseArg env i arg (positional argv)
          = ([EvParseArg i; EvCallValidate token],
             if Arg.validate arg token then Returned token
             else Thrown (invalid_value
                            ("arg " ++ Js.dec_nat (i + 1) ++ " ("
                                    ++ Arg.name arg ++ ")")
                            token))).
Proof.
  intros env name description flags args rest run argv Hhelp.
  split; [ | split; [ | split ] ].
  - unfold runCommand. rewrite Hhelp.
    rewrite parseArgsArray_resolve_positionals.
    apply bind_ext_returned. intros a Ha.
    pose proof (in_sequence_outcome
                  (map (fun ia => parseArg env (fst ia) (snd ia) (positional argv))
                       (indexed_from 0 args))) as Hlen.
    unfold resolve_positionals in Ha. rewrite Ha in Hlen.
    rewrite length_map, indexed_from_length in Hlen. rewrite Hlen.
    now rewrite parseRest_resolve_rest.
  - unfold resolve_rest. apply in_sequence_trace.
    intros m Hin. apply in_map_iff in Hin. destruct Hin as [it [<- _]].
    apply tryParseValue_trace.
  - reflexivity.
  - intros i arg token _ Hnth Hparse. now apply parseArg_given.
Qed.

Lemma runCommand_ArgsCommand_resolution_witness :
  let argv := {| positional := [JStr "1"; JStr "2"; JStr "3"; JStr "4"];
                 named := [] |} in
  let command :=
    ArgsCommand "two and more" []
      [Sample.text_arg "a"; Sample.text_arg "b"] (Sample.text_arg "c")
      (fun _ _ _ => Returned tt) in
  wantsHelp argv = false
  /\ runCommand Sample.quiet_env "cmd" command argv
     = ([EvParseArg 0; EvCallValidate (JStr "1");
         EvParseArg 1; EvCallValidate (JStr "2");
         EvCallValidate (JStr "3"); EvCallValidate (JStr "4");
         EvRun [] (Some ([JStr "1"; JStr "2"], [JStr "3"; JStr "4"]))],
        Returned tt).
Proof.
  split; [ reflexivity | ].
  rewrite (proj1 (runCommand_ArgsCommand_resolution
                    Sample.quiet_env "cmd" "two and more" []
                    [Sample.text_arg "a"; Sample.text_arg "b"]
                    (Sample.text_arg "c") (fun _ _ _ => Returned tt)
                    {| positional := [JStr "1"; JStr "2"; JStr "3"; JStr "4"];
                       named := [] |}
                    eq_refl)).
  reflexivity.
Defined.

(* --------------------------------------------------------------------- *)
(** ** The prompt path *)
(* --------------------------------------------------------------------- *)

Lemma tryPrompt_not_interactive env name flag :
  isTTY env = false ->
  tryPrompt env name flag = ([EvInteractive], Thrown (cannot_prompt name)).
Proof.
  intro Htty. unfold tryPrompt, interactive.
  rewrite bind_assoc, bind_emit, bind_ret_l, Htty. reflexivity.
Qed.

Lemma tryPrompt_interactive env name flag :
  isTTY env = true ->
  tryPrompt env name flag
  = ([EvInteractive;
      if is_some (spec_prompt flag)
      then EvCallPrompt (name ++ ": " ++ spec_description flag)
      else EvAsk (name ++ ": " ++ spec_description flag)]
       +++ match prompted env name flag with
           | Returned value => [EvCallValidate value]
           | Thrown _ => []
           end,
     match prompted env name flag with
     | Returned value =>
         if spec_validate flag value then Returned value
         else Thrown (invalid_prompted name value)
     | Thrown e => Thrown e
     end).
Proof.
  intro Htty. unfold tryPrompt, interactive, prompted.
  rewrite bind_assoc, bind_emit, bind_ret_l, Htty.
  cbn [negb trace outcome fst snd].
  destruct (spec_prompt flag) as [custom | ]; cbn [is_some].
  - rewrite bind_assoc, bind_emit.
    destruct (custom _) as [value | e]; [ | reflexivity ].
    rewrite bind_lift_returned, bind_emit.
    cbn [trace outcome fst snd default_question q_message].
    destruct (spec_validate flag value); reflexivity.
  - rewrite bind_assoc, bind_emit.
    destruct (createPromptModule env _) as [value | e]; [ | reflexivity ].
    rewrite bind_lift_returned, bind_emit.
    cbn [trace outcome fst snd default_question q_message].
    destruct (spec_validate flag value); reflexivity.
Qed.

(** C7: A missing value cannot be prompted for when the process is not
    attached to a terminal: the prompt path fails at once with the "Required
    but not given" error.  At a terminal, a value obtained by prompting (from
    the constructed question or from the custom prompt function) that fails
    the final validation is reported as "prompting returned invalid value",
    whose message is different from those of a parse failure and of an
    invalid given value. *)
Theorem tryPrompt_failures :
  forall env name flag,
    (isTTY env = false ->
     tryPrompt env name flag = ([EvInteractive], Thrown (cannot_prompt name)))
    /\ (isTTY env = true ->
        forall value,
          prompted env name flag = Returned value ->
          spec_validate flag value = false ->
          outcome (tryPrompt env name flag)
          = Thrown (invalid_prompted name value))
    /\ (forall value raw error post,
          error_message (invalid_prompted name value)
          <> error_message (parse_failure name raw error)
          /\ error_message (invalid_prompted name value)
             <> error_message (invalid_value name post)
          /\ error_message (invalid_prompted name value)
             <> error_message (cannot_prompt name)
          /\ error_message (cannot_prompt name)
             <> error_message (parse_failure name raw error)
          /\ error_message (cannot_prompt name)
             <> error_message (invalid_value name post)).
Proof.
  intros env name flag. split; [ | split ].
  - apply tryPrompt_not_interactive.
  - intros Htty value Hvalue Hinvalid.
    rewrite (tryPrompt_interactive env name flag Htty), Hvalue.
    cbn [outcome snd]. now rewrite Hinvalid.
  - intros value raw error post.
    cbv [error_message invalid_prompted parse_failure invalid_value cannot_prompt].
    repeat split; intro H; apply append_inj_l in H; discriminate H.
Qed.

Lemma tryPrompt_failures_witness :
  (isTTY Sample.quiet_env = false
   /\ tryPrompt Sample.quiet_env "--name" (OfFlag Sample.name_flag)
      = ([EvInteractive], Thrown (cannot_prompt "--name")))
  /\ (isTTY (Sample.terminal []) = true
      /\ prompted (Sample.terminal []) "--name" (OfFlag Sample.careless_flag)
         = Returned (JNum 7)
      /\ spec_validate (OfFlag Sample.careless_flag) (JNum 7) = false
      /\ outcome (tryPrompt (Sample.terminal []) "--name"
                            (OfFlag Sample.careless_flag))
         = Thrown (CommandLineError
                     "--name: prompting returned invalid value: 7" (JNum 7))).
Proof.
  split.
  - split; [ reflexivity | ].
    apply (proj1 (tryPrompt_failures Sample.quiet_env "--name"
                    (OfFlag Sample.name_flag))).
    reflexivity.
  - split; [ reflexivity | split; [ reflexivity | split; [ reflexivity | ] ] ].
    apply (proj1 (proj2 (tryPrompt_failures (Sample.terminal []) "--name"
                           (OfFlag Sample.careless_flag)))
             eq_refl (JNum 7) eq_refl eq_refl).
Defined.

(* --------------------------------------------------------------------- *)
(** ** Resolving one flag *)
(* --------------------------------------------------------------------- *)

Lemma tryParseValue_cases name flag value :
  tryParseValue name flag value
  = match spec_parse flag with
    | None =>
        ([EvCallValidate value],
         if spec_validate flag value then Returned value
         else Thrown (invalid_value name value))
    | Some parse =>
        match parse value with
        | Thrown error =>
            ([EvCallParse value], Thrown (parse_failure name value error))
        | Returned v =>
            ([EvCallParse value; EvCallValidate v],
             if spec_validate flag v then Returned v
             else Thrown (invalid_value name v))
        end
    end.
Proof.
  unfold tryParseValue. destruct (spec_parse flag) as [parse | ].
  - rewrite bind_assoc, bind_emit. destruct (parse value) as [v | error].
    + rewrite bind_ret_l, bind_emit. cbn [trace outcome fst snd].
      destruct (spec_validate flag v); reflexivity.
    + reflexivity.
  - rewrite bind_ret_l, bind_emit. cbn [trace outcome fst snd].
    destruct (spec_validate flag value); reflexivity.
Qed.

Lemma parseFlag_cases env name flag argv :
  parseFlag env name flag argv
  = if argv_has argv name then
      (EvParseFlag name
         :: trace (tryParseValue ("--" ++ name) (OfFlag flag) (argv_get argv name)),
       outcome (tryParseValue ("--" ++ name) (OfFlag flag) (argv_get argv name)))
    else
      match Flag.default flag with
      | Some producer =>
          match producer tt with
          | Returned defaulted =>
              ([EvParseFlag name; EvCallDefault; EvCallValidate defaulted],
               if Flag.validate flag defaulted then Returned defaulted
               else Thrown (invalid_default name defaulted))
          | Thrown e => ([EvParseFlag name; EvCallDefault], Thrown e)
          end
      | None =>
          (EvParseFlag name :: trace (tryPrompt env ("--" ++ name) (OfFlag flag)),
           outcome (tryPrompt env ("--" ++ name) (OfFlag flag)))
      end.
Proof.
  unfold parseFlag. rewrite bind_emit.
  destruct (argv_has argv name); [ reflexivity | ].
  destruct (Flag.default flag) as [producer | ]; [ | reflexivity ].
  rewrite bind_emit. destruct (producer tt) as [defaulted | e].
  - rewrite bind_lift_returned, bind_emit. cbn [trace outcome fst snd].
    destruct (Flag.validate flag defaulted); reflexivity.
  - reflexivity.
Qed.




(* --------------------------------------------------------------------- *)
(** ** The order in which a flag map is resolved *)
(* --------------------------------------------------------------------- *)

Lemma flag_events_app (t1 t2 : list Event) :
  flag_events (t1 +++ t2) = flag_events t1 +++ flag_events t2.
Proof. unfold flag_events. apply flat_map_app. Qed.

Lemma flag_events_In (t : list Event) (n : string) :
  In n (flag_events t) <-> In (EvParseFlag n) t.
Proof.
  unfold flag_events. rewrite in_flat_map. split.
  - intros [e [He Hn]]. destruct e; try contradiction.
    destruct Hn as [-> | []]. exact He.
  - intro H. exists (EvParseFlag n). split; [ exact H | now left ].
Qed.

Lemma flag_events_none (t : list Event) :
  Forall (fun e => is_flag_event e = false) t -> flag_events t = [].
Proof.
  induction 1 as [ | e t He _ IH]; [ reflexivity | ].
  destruct e; try discriminate He; exact IH.
Qed.

Lemma tryPrompt_trace env name flag :
  Forall (fun e => is_flag_event e = false) (trace (tryPrompt env name flag)).
Proof.
  destruct (isTTY env) eqn:Htty.
  - rewrite (tryPrompt_interactive env name flag Htty). cbn [trace fst].
    constructor; [ reflexivity | ].
    constructor; [ now destruct (is_some (spec_prompt flag)) | ].
    destruct (prompted env name flag); repeat constructor.
  - rewrite (tryPrompt_not_interactive env name flag Htty). repeat constructor.
Qed.

(** One call of [parseFlag] starts the resolution of its flag and of no
    other; it prompts only for a flag without a default. *)
Lemma parseFlag_trace env name flag argv :
  exists t,
    trace (parseFlag env name flag argv) = EvParseFlag name :: t
    /\ Forall (fun e => is_flag_event e = false) t
    /\ (Flag.default flag <> None ->
        Forall (fun e => is_prompt_event e = false) t).
Proof.
  rewrite parseFlag_cases. destruct (argv_has argv name).
  - eexists. split; [ reflexivity | ]. rewrite tryParseValue_cases.
    destruct (spec_parse (OfFlag flag)) as [parse | ].
    + destruct (parse (argv_get argv name)); split; intros; repeat constructor.
    + split; intros; repeat constructor.
  - destruct (Flag.default flag) as [producer | ].
    + destruct (producer tt); eexists; (split; [ reflexivity | ]);
        split; intros; repeat constructor.
    + eexists. split; [ reflexivity | ]. split.
      * apply tryPrompt_trace.
      * intro H. now contradiction H.
Qed.

Lemma has_default_true flagSet name :
  has_default flagSet name = true ->
  exists flag, Obj.get flagSet name = Some flag /\ Flag.default flag <> None.
Proof.
  unfold has_default. destruct (Obj.get flagSet name) as [flag | ]; [ | discriminate ].
  intro H. exists flag. split; [ reflexivity | ].
  destruct (Flag.default flag); [ discriminate | discriminate H ].
Qed.

(** The loop starts the flags in the order of [names], one call each. *)
Lemma parseFlags_loop_order env flagSet argv :
  forall names result,
    (exists k, flag_events (trace (parseFlags_loop env flagSet argv names result))
               = firstn k names)
    /\ (forall final,
          outcome (parseFlags_loop env flagSet argv names result) = Returned final ->
          flag_events (trace (parseFlags_loop env flagSet argv names result))
          = names).
Proof.
  induction names as [ | name rest IH]; intro result; cbn [parseFlags_loop].
  - split; [ now exists 0 | reflexivity ].
  - destruct (Obj.get flagSet name) as [flag | ].
    + rewrite trace_bind, outcome_bind, flag_events_app.
      destruct (parseFlag_trace env name flag argv) as [t [Ht [Hnone _]]].
      rewrite Ht. cbn [flag_events flat_map].
      fold (flag_events t). rewrite (flag_events_none t Hnone).
      destruct (outcome (parseFlag env name flag argv)) as [v | e].
      * destruct (IH (Obj.set result name v)) as [[k Hk] Hall]. split.
        -- exists (S k). cbn [app firstn]. now rewrite Hk.
        -- intros final Hfinal. cbn [app]. now rewrite (Hall final Hfinal).
      * split; [ now exists 1 | discriminate ].
    + split; [ now exists 0 | discriminate ].
Qed.

(** While only defaultable flags are resolved, nothing is prompted and only
    those flags are started. *)
Lemma parseFlags_loop_defaultable env flagSet argv :
  forall names result,
    (forall n, In n names -> has_default flagSet n = true) ->
    Forall (fun e => is_prompt_event e = false
                     /\ forall n, e = EvParseFlag n -> has_default flagSet n = true)
           (trace (parseFlags_loop env flagSet argv names result)).
Proof.
  induction names as [ | name rest IH]; intros result Hall; cbn [parseFlags_loop].
  - constructor.
  - destruct (has_default_true flagSet name (Hall name (or_introl eq_refl)))
      as [flag [Hget Hdefault]].
    rewrite Hget, trace_bind. apply Forall_app. split.
    + destruct (parseFlag_trace env name flag argv) as [t [Ht [Hnone Hquiet]]].
      rewrite Ht. constructor.
      * split; [ reflexivity | ]. intros n Hn. injection Hn as <-.
        apply Hall. now left.
      * specialize (Hquiet Hdefault).
        rewrite Forall_forall in *. intros e He. split; [ now apply Hquiet | ].
        intros n ->. now specialize (Hnone _ He).
    + destruct (outcome (parseFlag env name flag argv)); [ | constructor ].
      apply IH. intros n Hn. apply Hall. now right.
Qed.

Lemma parseFlagMap_trace env flagSet argv :
  trace (parseFlagMap env flagSet argv)
  = if Nat.ltb 0 (List.length (unknownFlags flagSet argv)) then []
    else
      trace (parseFlags_loop env flagSet argv (defaultableFlagNames flagSet) [])
      +++ match outcome (parseFlags_loop env flagSet argv
                           (defaultableFlagNames flagSet) []) with
          | Returned result =>
              trace (parseFlags_loop env flagSet argv
                       (nonDefaultableFlagNames flagSet) result)
          | Thrown _ => []
          end.
Proof.
  unfold parseFlagMap.
  destruct (Nat.ltb 0 (List.length (unknownFlags flagSet argv))); [ reflexivity | ].
  apply trace_bind.
Qed.

Lemma parseFlagMap_outcome env flagSet argv :
  outcome (parseFlagMap env flagSet argv)
  = if Nat.ltb 0 (List.length (unknownFlags flagSet argv)) then
      Thrown (unknown_flags_given (unknownFlags flagSet argv))
    else
      match outcome (parseFlags_loop env flagSet argv
                       (defaultableFlagNames flagSet) []) with
      | Returned result =>
          outcome (parseFlags_loop env flagSet argv
                     (nonDefaultableFlagNames flagSet) result)
      | Thrown e => Thrown e
      end.
Proof.
  unfold parseFlagMap.
  destruct (Nat.ltb 0 (List.length (unknownFlags flagSet argv))); [ reflexivity | ].
  apply outcome_bind.
Qed.

Lemma firstn_app_prefix {A} (k : nat) (xs ys : list A) :
  exists j, xs +++ firstn k ys = firstn j (xs +++ ys).
Proof.
  exists (List.length xs + k). rewrite firstn_app_2. reflexivity.
Qed.

Lemma firstn_prefix_app {A} (k : nat) (xs ys : list A) :
  exists j, firstn k xs = firstn j (xs +++ ys).
Proof.
  exists (Nat.min k (List.length xs)). rewrite firstn_app.
  replace (Nat.min k (List.length xs) - List.length xs) with 0 by lia.
  cbn [firstn]. rewrite app_nil_r.
  destruct (Nat.le_ge_cases k (List.length xs)) as [Hle | Hge].
  - now rewrite Nat.min_l.
  - rewrite Nat.min_r by exact Hge. now rewrite !firstn_all2 by lia.
Qed.

(** C3: [parseFlagMap] starts the flags in this order: those with a default,
    in declaration order, then those without, in declaration order (a failure
    cuts the order short; a successful resolution goes through all of it).
    Whenever a flag without a default is started, and whenever anything is
    prompted, every flag with a default has been started before. *)
Theorem parseFlagMap_defaults_first :
  forall env flagSet argv,
    (exists k,
        flag_events (trace (parseFlagMap env flagSet argv))
        = firstn k (filter (has_default flagSet) (Obj.keys flagSet)
                    +++ filter (fun n => negb (has_default flagSet n))
                               (Obj.keys flagSet)))
    /\ (forall result,
          outcome (parseFlagMap env flagSet argv) = Returned result ->
          flag_events (trace (parseFlagMap env flagSet argv))
          = filter (has_default flagSet) (Obj.keys flagSet)
            +++ filter (fun n => negb (has_default flagSet n)) (Obj.keys flagSet))
    /\ (forall before e after,
          trace (parseFlagMap env flagSet argv) = before +++ e :: after ->
          is_prompt_event e = true
          \/ (exists n, e = EvParseFlag n /\ has_default flagSet n = false) ->
          forall d,
            In d (Obj.keys flagSet) -> has_default flagSet d = true ->
            In (EvParseFlag d) before).
Proof.
  intros env flagSet argv.
  fold (defaultableFlagNames flagSet). fold (nonDefaultableFlagNames flagSet).
  rewrite parseFlagMap_trace, parseFlagMap_outcome.
  destruct (Nat.ltb 0 (List.length (unknownFlags flagSet argv))).
  { split; [ now exists 0 | split; [ discriminate | ] ].
    intros [ | x before] e after H; discriminate H. }
  destruct (parseFlags_loop_order env flagSet argv
              (defaultableFlagNames flagSet) []) as [[k Hk] Hall].
  assert (Hquiet :
            Forall (fun e => is_prompt_event e = false
                             /\ forall n, e = EvParseFlag n ->
                                          has_default flagSet n = true)
                   (trace (parseFlags_loop env flagSet argv
                             (defaultableFlagNames flagSet) []))).
  { apply parseFlags_loop_defaultable. intros n Hn.
    unfold defaultableFlagNames in Hn. now apply filter_In in Hn. }
  assert (Hnot : forall e,
             is_prompt_event e = true
             \/ (exists n, e = EvParseFlag n /\ has_default flagSet n = false) ->
             ~ In e (trace (parseFlags_loop env flagSet argv
                              (defaultableFlagNames flagSet) []))).
  { intros e He Hin. rewrite Forall_forall in Hquiet.
    destruct (Hquiet e Hin) as [Hp Hf].
    destruct He as [He | [n [-> Hn]]]; [ congruence | ].
    specialize (Hf n eq_refl). congruence. }
  set (D := trace (parseFlags_loop env flagSet argv
                     (defaultableFlagNames flagSet) [])) in *.
  destruct (outcome (parseFlags_loop env flagSet argv
                       (defaultableFlagNames flagSet) [])) as [partial | e0].
  - specialize (Hall partial eq_refl).
    destruct (parseFlags_loop_order env flagSet argv
                (nonDefaultableFlagNames flagSet) partial) as [[j Hj] Hall'].
    assert (Hstarted : forall d, In d (Obj.keys flagSet) ->
                                 has_default flagSet d = true ->
                                 In (EvParseFlag d) D).
    { intros d Hd Hdefault. apply flag_events_In. rewrite Hall.
      unfold defaultableFlagNames. apply filter_In. now split. }
    split; [ | split ].
    + rewrite flag_events_app, Hall, Hj. apply firstn_app_prefix.
    + intros result Hresult. rewrite flag_events_app, Hall.
      now rewrite (Hall' result Hresult).
    + intros before e after Hsplit He d Hd Hdefault.
      apply app_eq_app in Hsplit.
      destruct Hsplit as [l [[Hfirst Hrest] | [Hbefore _]]].
      * destruct l as [ | x l].
        -- rewrite app_nil_r in Hfirst. rewrite <- Hfirst. now apply Hstarted.
        -- exfalso. injection Hrest as <- _.
           apply (Hnot e He). rewrite Hfirst. apply in_or_app. right. now left.
      * rewrite Hbefore. apply in_or_app. left. now apply Hstarted.
  - rewrite app_nil_r. split; [ | split ].
    + rewrite Hk. apply firstn_prefix_app.
    + discriminate.
    + intros before e after Hsplit He. exfalso.
      apply (Hnot e He). rewrite Hsplit. apply in_or_app. right. now left.
Qed.

Lemma parseFlagMap_defaults_first_witness :
  outcome (parseFlagMap (Sample.terminal [JStr "Ada"]) Sample.greet_flags
                        Sample.no_arguments)
  = Returned [("exuberant", JBool false); ("name", JStr "Ada")]
  /\ flag_events (trace (parseFlagMap (Sample.terminal [JStr "Ada"])
                                      Sample.greet_flags Sample.no_arguments))
     = ["exuberant"; "name"].
Proof.
  split; [ reflexivity | ].
  exact (proj1 (proj2 (parseFlagMap_defaults_first
                         (Sample.terminal [JStr "Ada"]) Sample.greet_flags
                         Sample.no_arguments))
           [("exuberant", JBool false); ("name", JStr "Ada")] eq_refl).
Defined.

(* --------------------------------------------------------------------- *)
(** ** Asking for help *)
(* --------------------------------------------------------------------- *)


Lemma flag_rows_trace flags :
  forall names,
    Forall (fun e => is_default_event e = true) (trace (flag_rows flags names)).
Proof.
  induction names as [ | name rest IH]; cbn [flag_rows]; [ constructor | ].
  destruct (Obj.get flags name) as [flag | ]; [ | constructor ].
  rewrite trace_bind. apply Forall_app. split.
  - destruct (Flag.default flag) as [producer | ]; [ | constructor ].
    rewrite bind_emit. cbn [trace fst]. constructor; [ reflexivity | ].
    rewrite trace_bind. cbn [lift trace fst app].
    destruct (outcome (lift (producer tt))); constructor.
  - match goal with |- context [outcome ?m] => destruct (outcome m) end;
      [ | constructor ].
    rewrite trace_bind. apply Forall_app. split; [ exact IH | ].
    destruct (outcome (flag_rows flags rest)); constructor.
Qed.


Lemma getCommandUsage_shape env name command :
  exists (finish : list (list string) -> string) (text : string),
    getCommandUsage env name command
    = if Nat.ltb 0 (List.length (Obj.keys (command_flags command))) then
        rows <- flag_rows (command_flags command)
                          (Obj.keys (command_flags command)) ;;
        ret (finish rows)
      else ret text.
Proof.
  unfold getCommandUsage.
  destruct (usage_of_flags (command_flags command)) as [flagUsage omitted].
  eexists (fun rows => _), _.
  destruct (Nat.ltb 0 (List.length (Obj.keys (command_flags command))));
    reflexivity.
Qed.




(* --------------------------------------------------------------------- *)
(** ** Subcommands *)
(* --------------------------------------------------------------------- *)

(** C1: With no positional token, or with ["help"] as the only one,
    [runLoaders] renders nothing: it reads the second token, which does not
    exist, and calling [toString] on it throws.  With ["help"] and a second
    token whose text is not empty, it loads that command and dispatches to it
    with the synthesized help request. *)
Theorem runLoaders_without_second_token :
  forall env name commandLoaders flags,
    runLoaders env name commandLoaders {| positional := []; named := flags |}
    = ([], Thrown (TypeError "Cannot read property 'toString' of undefined"))
    /\ runLoaders env name commandLoaders
         {| positional := [JStr "help"]; named := flags |}
       = ([], Thrown (TypeError "Cannot read property 'toString' of undefined"))
    /\ forall about rest,
         about <> "" ->
         runLoaders env name commandLoaders
           {| positional := JStr "help" :: JStr about :: rest; named := flags |}
         = (command <- loadCommand about commandLoaders ;;
            runCommand env (name ++ " " ++ about) command help_request).
Proof.
  intros env name commandLoaders flags. split; [ | split ].
  - reflexivity.
  - reflexivity.
  - intros about rest Habout. unfold runLoaders.
    cbn [positional nth is_undefined is_help_token String.eqb Ascii.eqb
         Bool.eqb orb tl Js.toString Js.String_].
    rewrite bind_lift_returned.
    apply String.eqb_neq in Habout. now rewrite Habout.
Qed.

Lemma runLoaders_without_second_token_witness :
  "greet" <> ""
  /\ runLoaders Sample.quiet_env "cli" [("greet", fun _ => Returned Sample.greet)]
       {| positional := [JStr "help"; JStr "greet"]; named := [] |}
     = (command <- loadCommand "greet" [("greet", fun _ => Returned Sample.greet)] ;;
        runCommand Sample.quiet_env ("cli" ++ " " ++ "greet") command
                   help_request).
Proof.
  split; [ discriminate | ].
  apply (proj2 (proj2 (runLoaders_without_second_token
                         Sample.quiet_env "cli"
                         [("greet", fun _ => Returned Sample.greet)] []))).
  discriminate.
Defined.

(* --------------------------------------------------------------------- *)
(** ** Numbers written out and read back *)
(* --------------------------------------------------------------------- *)












(* --------------------------------------------------------------------- *)
(** ** Flags written out and resolved again *)
(* --------------------------------------------------------------------- *)

Lemma Obj_get_In {V} (o : list (string * V)) (k : string) (v : V) :
  Obj.get o k = Some v -> In (k, v) o.
Proof.
  induction o as [ | [k' v'] o IH]; simpl; [ discriminate | ].
  destruct (String.eqb_spec k k') as [-> | _].
  - intros [= ->]. now left.
  - intro H. right. now apply IH.
Qed.


Lemma Obj_get_set {V} (o : list (string * V)) (k k' : string) (v : V) :
  Obj.get (Obj.set o k v) k' = if String.eqb k' k then Some v else Obj.get o k'.
Proof.
  induction o as [ | [k0 v0] o IH]; cbn [Obj.set Obj.get].
  - reflexivity.
  - destruct (String.eqb_spec k k0) as [-> | Hk].
    + cbn [Obj.get]. now destruct (String.eqb k' k0).
    + cbn [Obj.get]. destruct (String.eqb_spec k' k0) as [-> | _].
      * destruct (String.eqb_spec k0 k) as [-> | _]; [ contradiction | reflexivity ].
      * exact IH.
Qed.



Lemma split_eq_nonempty (k s : string) :
  k <> "" -> k ++ s <> "".
Proof. destruct k; simpl; congruence. Qed.



Section RoundTrip.

Variable env : Env.
Variable flagMap : FlagMap.
Variable flags : JsObject.

Hypothesis distinct_names : NoDup (Obj.keys flagMap).

Hypothesis round_trip_domain :
  forall name flag,
    In (name, flag) flagMap ->
    name <> "" /\ name <> "_" /\ Tokenizer.split_eq name = None
    /\ Flag.parse flag = None
    /\ exists v,
         Obj.get flags name = Some v /\ Flag.validate flag v = true
         /\ (v = JBool true \/ exists z, v = JNum z /\ z <> 0%Z).










End RoundTrip.



(* ===================================================================== *)
(** * Further properties of the framework *)
(* ===================================================================== *)

(* --------------------------------------------------------------------- *)
(** ** What resolution returns *)
(* --------------------------------------------------------------------- *)

Lemma Forall_trace_bind {A B} (P : Event -> Prop) (m : M A) (f : A -> M B) :
  Forall P (trace m) ->
  (forall a, outcome m = Returned a -> Forall P (trace (f a))) ->
  Forall P (trace (bind m f)).
Proof.
  intros Hm Hf. rewrite trace_bind. apply Forall_app. split; [ exact Hm | ].
  destruct (outcome m) as [a | e]; [ now apply Hf | constructor ].
Qed.

Lemma tryParseValue_outcome name flag value :
  match outcome (tryParseValue name flag value) with
  | Returned v => spec_validate flag v = true
  | Thrown e => is_CommandLineError e = true
  end.
Proof.
  rewrite tryParseValue_cases. destruct (spec_parse flag) as [parse | ].
  - destruct (parse value) as [v | error]; cbn [outcome snd]; [ | reflexivity ].
    destruct (spec_validate flag v) eqn:Hv; [ exact Hv | reflexivity ].
  - cbn [outcome snd].
    destruct (spec_validate flag value) eqn:Hv; [ exact Hv | reflexivity ].
Qed.

Lemma tryParseValue_validated name flag value v :
  outcome (tryParseValue name flag value) = Returned v ->
  spec_validate flag v = true.
Proof.
  intro H. pose proof (tryParseValue_outcome name flag value) as Hm.
  now rewrite H in Hm.
Qed.

Lemma tryPrompt_validated env name flag v :
  outcome (tryPrompt env name flag) = Returned v -> spec_validate flag v = true.
Proof.
  destruct (isTTY env) eqn:Htty.
  - rewrite (tryPrompt_interactive env name flag Htty). cbn [outcome snd].
    destruct (prompted env name flag) as [value | e]; [ | discriminate ].
    destruct (spec_validate flag value) eqn:Hv; [ | discriminate ].
    now intros [= <-].
  - rewrite (tryPrompt_not_interactive env name flag Htty). discriminate.
Qed.

Lemma parseFlag_validated env name flag argv v :
  outcome (parseFlag env name flag argv) = Returned v ->
  Flag.validate flag v = true.
Proof.
  rewrite parseFlag_cases. destruct (argv_has argv name).
  - cbn [outcome snd]. apply (tryParseValue_validated _ (OfFlag flag)).
  - destruct (Flag.default flag) as [producer | ].
    + destruct (producer tt) as [defaulted | e]; [ | discriminate ].
      cbn [outcome snd].
      destruct (Flag.validate flag defaulted) eqn:Hv; [ | discriminate ].
      now intros [= <-].
    + cbn [outcome snd]. apply (tryPrompt_validated env _ (OfFlag flag)).
Qed.

Lemma parseArg_validated env i arg given v :
  outcome (parseArg env i arg given) = Returned v -> Arg.validate arg v = true.
Proof.
  unfold parseArg. rewrite bind_emit. cbn [outcome snd].
  destruct (nth_error given i) as [token | ].
  - apply (tryParseValue_validated _ (OfArg arg)).
  - apply (tryPrompt_validated env _ (OfArg arg)).
Qed.


(** X2: A value that [parseFlag] returns satisfies the flag's validator,
    whichever way it was obtained: given and parsed, produced by the default,
    or answered at the prompt. The same holds for [parseArg]. *)
Theorem resolved_values_are_valid :
  forall env name flag argv index arg given,
    match outcome (parseFlag env name flag argv) with
    | Returned v => Flag.validate flag v = true
    | Thrown _ => True
    end
    /\ match outcome (parseArg env index arg given) with
       | Returned v => Arg.validate arg v = true
       | Thrown _ => True
       end.
Proof.
  intros env name flag argv index arg given. split.
  - destruct (outcome (parseFlag env name flag argv)) as [v | e] eqn:H;
      [ | exact I ].
    now apply (parseFlag_validated env name flag argv).
  - destruct (outcome (parseArg env index arg given)) as [v | e] eqn:H;
      [ | exact I ].
    now apply (parseArg_validated env index arg given).
Qed.

Lemma Obj_get_key {V} (o : list (string * V)) (k : string) (v : V) :
  Obj.get o k = Some v -> In k (Obj.keys o).
Proof.
  intro H. apply Obj_get_In in H. apply (in_map fst) in H. exact H.
Qed.

Lemma Obj_set_keys {V} (o : list (string * V)) (k : string) (v : V) (n : string) :
  In n (Obj.keys (Obj.set o k v)) <-> In n (Obj.keys o) \/ n = k.
Proof.
  induction o as [ | [k' v'] o IH]; cbn [Obj.set Obj.keys map fst In].
  - intuition congruence.
  - destruct (String.eqb_spec k k') as [-> | Hk]; cbn [map fst In].
    + intuition congruence.
    + unfold Obj.keys in IH. rewrite IH. intuition congruence.
Qed.

Lemma parseFlags_loop_result env flagSet argv :
  forall names result final,
    outcome (parseFlags_loop env flagSet argv names result) = Returned final ->
    (forall n, In n (Obj.keys final) <-> In n (Obj.keys result) \/ In n names)
    /\ (forall n, In n names ->
                  exists flag v,
                    Obj.get flagSet n = Some flag /\ Obj.get final n = Some v
                    /\ Flag.validate flag v = true)
    /\ (forall n, ~ In n names -> Obj.get final n = Obj.get result n).
Proof.
  induction names as [ | name rest IH]; intros result final;
    cbn [parseFlags_loop].
  - intros [= <-]. split; [ | split ].
    + intro n. cbn [In]. tauto.
    + intros n [].
    + reflexivity.
  - destruct (Obj.get flagSet name) as [flag | ] eqn:Hflag; [ | discriminate ].
    rewrite outcome_bind.
    destruct (outcome (parseFlag env name flag argv)) as [v | e] eqn:Hv;
      [ | discriminate ].
    intro Hfinal. apply IH in Hfinal. destruct Hfinal as [Hkeys [Hin Hout]].
    apply parseFlag_validated in Hv.
    split; [ | split ].
    + intro n. rewrite Hkeys, Obj_set_keys. cbn [In]. intuition congruence.
    + intros n Hn.
      destruct (in_dec string_dec n rest) as [Hrest | Hrest];
        [ now apply Hin | ].
      destruct Hn as [<- | Hn]; [ | contradiction ].
      exists flag, v. split; [ exact Hflag | split; [ | exact Hv ] ].
      rewrite (Hout name Hrest), Obj_get_set. now rewrite String.eqb_refl.
    + intros n Hn. rewrite Hout by (intro; apply Hn; now right).
      rewrite Obj_get_set.
      destruct (String.eqb_spec n name) as [-> | _]; [ | reflexivity ].
      exfalso. apply Hn. now left.
Qed.

Lemma parseFlagMap_result env flagSet argv result :
  outcome (parseFlagMap env flagSet argv) = Returned result ->
  unknownFlags flagSet argv = []
  /\ (forall n, In n (Obj.keys result) <-> In n (Obj.keys flagSet))
  /\ flags_resolved flagSet result.
Proof.
  rewrite parseFlagMap_outcome.
  destruct (unknownFlags flagSet argv) as [ | u us]; [ | discriminate ].
  cbn [List.length Nat.ltb Nat.leb].
  destruct (outcome (parseFlags_loop env flagSet argv
                       (defaultableFlagNames flagSet) []))
    as [partial | e] eqn:Hfirst; [ | discriminate ].
  intro Hsecond.
  apply parseFlags_loop_result in Hfirst. destruct Hfirst as [Hk1 [Hin1 _]].
  apply parseFlags_loop_result in Hsecond. destruct Hsecond as [Hk2 [Hin2 Hout2]].
  assert (Hsplit : forall n, In n (Obj.keys flagSet) ->
                             In n (defaultableFlagNames flagSet)
                             \/ In n (nonDefaultableFlagNames flagSet)).
  { intros n Hn. unfold defaultableFlagNames, nonDefaultableFlagNames.
    rewrite !filter_In. destruct (has_default flagSet n); [ left | right ];
      now split. }
  split; [ reflexivity | split ].
  - intro n. rewrite Hk2, Hk1. cbn [Obj.keys map In]. split.
    + intros [[[] | Hd] | Hn].
      * unfold defaultableFlagNames in Hd. now apply filter_In in Hd.
      * unfold nonDefaultableFlagNames in Hn. now apply filter_In in Hn.
    + intro Hn. destruct (Hsplit n Hn); tauto.
  - intros name flag Hflag.
    destruct (Hsplit name (Obj_get_key _ _ _ Hflag)) as [Hd | Hn].
    + destruct (in_dec string_dec name (nonDefaultableFlagNames flagSet))
        as [Hn | Hn].
      * destruct (Hin2 name Hn) as [flag' [v [Hflag' [Hv Hvalid]]]].
        exists v. split; [ exact Hv | congruence ].
      * destruct (Hin1 name Hd) as [flag' [v [Hflag' [Hv Hvalid]]]].
        exists v. rewrite (Hout2 name Hn). split; [ exact Hv | congruence ].
    + destruct (Hin2 name Hn) as [flag' [v [Hflag' [Hv Hvalid]]]].
      exists v. split; [ exact Hv | congruence ].
Qed.

(** X3: When [parseFlagMap] returns, every key given in the raw arguments
    (other than ["_"] and ["$0"]) is a declared flag, the result has exactly
    the declared flags as its keys, and the value it holds for each declared
    flag satisfies that flag's validator. *)
Theorem parseFlagMap_returns_resolved_flags :
  forall env flagSet argv result,
    outcome (parseFlagMap env flagSet argv) = Returned result ->
    (forall name, In name (Object_keys argv) ->
                  name = "_" \/ name = "$0" \/ In name (Obj.keys flagSet))
    /\ (forall name, In name (Obj.keys result) <-> In name (Obj.keys flagSet))
    /\ (forall name flag,
          Obj.get flagSet name = Some flag ->
          exists v, Obj.get result name = Some v /\ Flag.validate flag v = true).
Proof.
  intros env flagSet argv result Hresult.
  apply parseFlagMap_result in Hresult.
  destruct Hresult as [Hunknown [Hkeys Hvalid]].
  split; [ | split; [ exact Hkeys | exact Hvalid ] ].
  intros name Hname.
  destruct (string_dec name "_") as [-> | H1]; [ now left | ].
  destruct (string_dec name "$0") as [-> | H2]; [ right; now left | ].
  right. right.
  destruct (in_dec string_dec name (Obj.keys flagSet)) as [Hin | Hnot];
    [ exact Hin | ].
  exfalso.
  assert (Hbad : In name (unknownFlags flagSet argv))
    by (apply unknownFlags_spec; tauto).
  rewrite Hunknown in Hbad. exact Hbad.
Qed.

Lemma parseFlagMap_returns_resolved_flags_witness :
  let argv := {| positional := []; named := [("name", JStr "Ada")] |} in
  let result := [("exuberant", JBool false); ("name", JStr "Ada")] in
  outcome (parseFlagMap Sample.quiet_env Sample.greet_flags argv)
  = Returned result
  /\ (forall name, In name (Obj.keys result)
                   <-> In name (Obj.keys Sample.greet_flags)).
Proof.
  split; [ reflexivity | ].
  exact (proj1 (proj2 (parseFlagMap_returns_resolved_flags
                         Sample.quiet_env Sample.greet_flags
                         {| positional := []; named := [("name", JStr "Ada")] |}
                         [("exuberant", JBool false); ("name", JStr "Ada")]
                         eq_refl))).
Defined.

(* --------------------------------------------------------------------- *)
(** ** What positional resolution returns *)
(* --------------------------------------------------------------------- *)

Lemma in_sequence_returned {A} (ms : list (M A)) :
  forall vs,
    outcome (in_sequence ms) = Returned vs ->
    Forall2 (fun m v => outcome m = Returned v) ms vs.
Proof.
  induction ms as [ | m ms IH]; intro vs; cbn [in_sequence].
  - intros [= <-]. constructor.
  - rewrite outcome_bind. destruct (outcome m) as [v | e] eqn:Hm; [ | discriminate ].
    rewrite outcome_bind.
    destruct (outcome (in_sequence ms)) as [rest | e]; [ | discriminate ].
    intros [= <-]. constructor; [ exact Hm | now apply IH ].
Qed.

Lemma resolve_positionals_valid env given :
  forall args i vs,
    outcome (in_sequence
               (map (fun ia => parseArg env (fst ia) (snd ia) given)
                    (indexed_from i args)))
    = Returned vs ->
    Forall2 (fun arg v => Arg.validate arg v = true) args vs.
Proof.
  intros args i vs H. apply in_sequence_returned in H.
  revert i vs H. induction args as [ | arg args IH]; intros i vs H;
    cbn [indexed_from map] in H; inversion H; subst; constructor.
  - cbn [fst snd] in *. eapply parseArg_validated. eassumption.
  - eapply IH. eassumption.
Qed.

Lemma resolve_rest_valid rest :
  forall remaining i vs,
    outcome (in_sequence
               (map (fun it =>
                       tryParseValue ("Rest arg " ++ Js.dec_nat (fst it + 1))
                                     (OfArg rest) (snd it))
                    (indexed_from i remaining)))
    = Returned vs ->
    Forall (fun v => Arg.validate rest v = true) vs
    /\ List.length vs = List.length remaining.
Proof.
  intros remaining i vs H. apply in_sequence_returned in H.
  revert i vs H. induction remaining as [ | token remaining IH]; intros i vs H;
    cbn [indexed_from map] in H; inversion H; subst.
  - split; [ constructor | reflexivity ].
  - match goal with
    | Hrest : Forall2 _ (map _ (indexed_from _ remaining)) _ |- _ =>
        destruct (IH _ _ Hrest) as [Hvalid Hlen]
    end.
    split; [ constructor; [ | exact Hvalid ] | cbn [List.length]; now rewrite Hlen ].
    cbn [fst snd] in *.
    eapply (tryParseValue_validated _ (OfArg rest)). eassumption.
Qed.


(* --------------------------------------------------------------------- *)
(** ** What a run consists of *)
(* --------------------------------------------------------------------- *)

Ltac resolution_event :=
  split; [ reflexivity | first [ intros _; reflexivity | congruence ] ].

Lemma tryParseValue_resolution env name flag value :
  Forall (resolution_only env) (trace (tryParseValue name flag value)).
Proof.
  rewrite tryParseValue_cases. destruct (spec_parse flag) as [parse | ].
  - destruct (parse value); repeat (constructor; try resolution_event).
  - repeat (constructor; try resolution_event).
Qed.

Lemma tryPrompt_resolution env name flag :
  Forall (resolution_only env) (trace (tryPrompt env name flag)).
Proof.
  destruct (isTTY env) eqn:Htty.
  - rewrite (tryPrompt_interactive env name flag Htty). cbn [trace fst].
    constructor; [ resolution_event | ].
    constructor; [ destruct (is_some (spec_prompt flag)); resolution_event | ].
    destruct (prompted env name flag); repeat (constructor; try resolution_event).
  - rewrite (tryPrompt_not_interactive env name flag Htty).
    repeat (constructor; try resolution_event).
Qed.

Lemma parseFlag_resolution env name flag argv :
  Forall (resolution_only env) (trace (parseFlag env name flag argv)).
Proof.
  rewrite parseFlag_cases. destruct (argv_has argv name).
  - constructor; [ resolution_event | apply tryParseValue_resolution ].
  - destruct (Flag.default flag) as [producer | ].
    + destruct (producer tt); repeat (constructor; try resolution_event).
    + constructor; [ resolution_event | apply tryPrompt_resolution ].
Qed.

Lemma parseArg_resolution env i arg given :
  Forall (resolution_only env) (trace (parseArg env i arg given)).
Proof.
  unfold parseArg. rewrite bind_emit. cbn [trace fst].
  constructor; [ resolution_event | ].
  destruct (nth_error given i);
    [ apply tryParseValue_resolution | apply tryPrompt_resolution ].
Qed.

Lemma parseFlags_loop_resolution env flagSet argv :
  forall names result,
    Forall (resolution_only env)
           (trace (parseFlags_loop env flagSet argv names result)).
Proof.
  induction names as [ | name rest IH]; intro result; cbn [parseFlags_loop].
  - constructor.
  - destruct (Obj.get flagSet name) as [flag | ]; [ | constructor ].
    apply Forall_trace_bind; [ apply parseFlag_resolution | ].
    intros v _. apply IH.
Qed.

Lemma parseFlagMap_resolution env flagSet argv :
  Forall (resolution_only env) (trace (parseFlagMap env flagSet argv)).
Proof.
  rewrite parseFlagMap_trace.
  destruct (Nat.ltb 0 (List.length (unknownFlags flagSet argv)));
    [ constructor | ].
  apply Forall_app. split; [ apply parseFlags_loop_resolution | ].
  destruct (outcome _); [ apply parseFlags_loop_resolution | constructor ].
Qed.

Lemma parseArgsArray_resolution env argsArray argv :
  Forall (resolution_only env) (trace (parseArgsArray env argsArray argv)).
Proof.
  rewrite parseArgsArray_resolve_positionals. unfold resolve_positionals.
  apply in_sequence_trace. intros m Hin. apply in_map_iff in Hin.
  destruct Hin as [ia [<- _]]. apply parseArg_resolution.
Qed.

Lemma parseRest_resolution env restType givenArgs :
  Forall (resolution_only env) (trace (parseRest restType givenArgs)).
Proof.
  rewrite parseRest_resolve_rest. unfold resolve_rest.
  apply in_sequence_trace. intros m Hin. apply in_map_iff in Hin.
  destruct Hin as [it [<- _]]. apply tryParseValue_resolution.
Qed.

Lemma parseArgsArray_length env argsArray argv results :
  outcome (parseArgsArray env argsArray argv) = Returned results ->
  List.length results = List.length argsArray
  /\ Forall2 (fun arg v => Arg.validate arg v = true) argsArray results.
Proof.
  rewrite parseArgsArray_resolve_positionals. unfold resolve_positionals.
  intro H. split.
  - pose proof (in_sequence_outcome
                  (map (fun ia => parseArg env (fst ia) (snd ia) (positional argv))
                       (indexed_from 0 argsArray))) as Hlen.
    rewrite H in Hlen. now rewrite length_map, indexed_from_length in Hlen.
  - now apply resolve_positionals_valid in H.
Qed.

Lemma parseRest_valid restType givenArgs results :
  outcome (parseRest restType givenArgs) = Returned results ->
  Forall (fun v => Arg.validate restType v = true) results
  /\ List.length results = List.length givenArgs.
Proof.
  rewrite parseRest_resolve_rest. unfold resolve_rest.
  apply resolve_rest_valid.
Qed.

(** Without a help request, a run of [runCommand] is resolution, followed by
    at most one call of the handler, on what was resolved. *)
Lemma runCommand_shape env name command argv :
  wantsHelp argv = false ->
  exists resolution handler,
    trace (runCommand env name command argv) = resolution +++ handler
    /\ Forall (resolution_only env) resolution
    /\ (handler = []
        \/ exists flags positionals,
             handler = [EvRun flags positionals]
             /\ well_resolved command argv flags positionals).
Proof.
  intro Hhelp. unfold runCommand. rewrite Hhelp.
  destruct command as [description flags run | description flags args rest run].
  - destruct (positional argv) as [ | token tokens] eqn:Hgiven.
    + cbn [List.length Nat.ltb Nat.leb]. rewrite trace_bind.
      exists (trace (parseFlagMap env flags argv)).
      destruct (outcome (parseFlagMap env flags argv)) as [f | e] eqn:Hf.
      * exists [EvRun f None]. split; [ | split ].
        -- rewrite bind_emit. reflexivity.
        -- apply parseFlagMap_resolution.
        -- right. exists f, None. split; [ reflexivity | ].
           split; [ | exact Hgiven ].
           now apply parseFlagMap_result in Hf.
      * exists []. split; [ reflexivity | split; [ | now left ] ].
        apply parseFlagMap_resolution.
    + exists [], []. split; [ reflexivity | split; [ constructor | now left ] ].
  - rewrite trace_bind.
    destruct (outcome (parseArgsArray env args argv)) as [a | e] eqn:Ha.
    2:{ exists (trace (parseArgsArray env args argv)), [].
        split; [ reflexivity | split ].
        - apply parseArgsArray_resolution.
        - now left. }
    rewrite trace_bind.
    destruct (outcome (parseRest rest (skipn (List.length a) (positional argv))))
      as [r | e] eqn:Hr.
    2:{ exists (trace (parseArgsArray env args argv)
                +++ trace (parseRest rest
                             (skipn (List.length a) (positional argv)))), [].
        split; [ now rewrite !app_nil_r | split ].
        - apply Forall_app. split;
            [ apply parseArgsArray_resolution | apply parseRest_resolution ].
        - now left. }
    rewrite trace_bind.
    destruct (outcome (parseFlagMap env flags argv)) as [f | e] eqn:Hf.
    2:{ exists (trace (parseArgsArray env args argv)
                +++ trace (parseRest rest
                             (skipn (List.length a) (positional argv)))
                +++ trace (parseFlagMap env flags argv)), [].
        split; [ now rewrite !app_nil_r | split ].
        - repeat (apply Forall_app; split);
            [ apply parseArgsArray_resolution | apply parseRest_resolution
            | apply parseFlagMap_resolution ].
        - now left. }
    exists (trace (parseArgsArray env args argv)
            +++ trace (parseRest rest (skipn (List.length a) (positional argv)))
            +++ trace (parseFlagMap env flags argv)),
      [EvRun f (Some (a, r))].
    split; [ | split ].
    + rewrite bind_emit. cbn [trace fst lift]. now rewrite <- !app_assoc.
    + repeat (apply Forall_app; split);
        [ apply parseArgsArray_resolution | apply parseRest_resolution
        | apply parseFlagMap_resolution ].
    + right. exists f, (Some (a, r)). split; [ reflexivity | ].
      apply parseArgsArray_length in Ha. destruct Ha as [Hlen Hvalid].
      apply parseRest_valid in Hr. destruct Hr as [Hrvalid Hrlen].
      split; [ now apply parseFlagMap_result in Hf | ].
      split; [ exact Hvalid | split; [ exact Hrvalid | ] ].
      rewrite Hrlen, length_skipn. now rewrite Hlen.
Qed.

Lemma runCommand_help_trace env name command argv :
  wantsHelp argv = true ->
  Forall (fun e => is_default_event e = true \/ exists text, e = EvLog text)
         (trace (runCommand env name command argv)).
Proof.
  intro Hhelp. unfold runCommand. rewrite Hhelp.
  apply Forall_trace_bind.
  - destruct (getCommandUsage_shape env name command) as [finish [text ->]].
    destruct (Nat.ltb 0 (List.length (Obj.keys (command_flags command))));
      [ | constructor ].
    apply Forall_trace_bind; [ | intros; constructor ].
    eapply Forall_impl; [ | apply flag_rows_trace ].
    intros e He. now left.
  - intros usage _. constructor; [ right; now exists usage | constructor ].
Qed.

Lemma only_run_is_last (resolution before after : list Event) (r e : Event) :
  Forall (fun x => is_run_event x = false) resolution ->
  is_run_event e = true ->
  resolution +++ [r] = before +++ e :: after ->
  before = resolution /\ e = r /\ after = [].
Proof.
  intros Hquiet He. revert before.
  induction resolution as [ | x resolution IH]; intros before Hsplit.
  - destruct before as [ | b before]; cbn [app] in Hsplit.
    + injection Hsplit as <- <-. now repeat split.
    + injection Hsplit as _ Hrest. now destruct before.
  - inversion Hquiet as [ | ? ? Hx Hquiet']; subst.
    destruct before as [ | b before]; cbn [app] in Hsplit.
    + injection Hsplit as <- _. congruence.
    + injection Hsplit as <- Hrest.
      destruct (IH Hquiet' before Hrest) as [-> [-> ->]]. now repeat split.
Qed.

Lemma resolution_only_not_run env (t : list Event) :
  Forall (resolution_only env) t -> Forall (fun x => is_run_event x = false) t.
Proof.
  apply Forall_impl. intros e [He _]. now destruct e.
Qed.

(** X5: Whenever [runCommand] invokes the handler, that is the last thing it
    does, and it does so once: everything before is resolution, no help
    was asked for, and what the handler is given is what the command
    declares (a validated value for every declared flag; for a command with
    positional arguments a validated value per declared position and the
    validated remaining tokens; for a flags-only command, no positional token
    was given). *)
Theorem runCommand_invokes_handler_last :
  forall env name command argv before flags positionals after,
    trace (runCommand env name command argv)
    = before +++ EvRun flags positionals :: after ->
    after = []
    /\ Forall (fun e => is_resolution_event e = true) before
    /\ wantsHelp argv = false
    /\ well_resolved command argv flags positionals.
Proof.
  intros env name command argv before flags positionals after Hsplit.
  destruct (wantsHelp argv) eqn:Hhelp.
  - exfalso.
    pose proof (runCommand_help_trace env name command argv Hhelp) as Hall.
    rewrite Hsplit in Hall. apply Forall_app in Hall. destruct Hall as [_ Hall].
    inversion Hall as [ | ? ? [He | [text He]] _]; discriminate He.
  - destruct (runCommand_shape env name command argv Hhelp)
      as [resolution [handler [Htrace [Hres Hhandler]]]].
    rewrite Hsplit in Htrace.
    destruct Hhandler as [-> | [f [pos [-> Hwell]]]].
    + exfalso. rewrite app_nil_r in Htrace. subst resolution.
      apply resolution_only_not_run in Hres.
      apply Forall_app in Hres. destruct Hres as [_ Hres].
      inversion Hres as [ | ? ? He _]. discriminate He.
    + symmetry in Htrace.
      destruct (only_run_is_last resolution before after
                  (EvRun f pos) (EvRun flags positionals)
                  (resolution_only_not_run env _ Hres) eq_refl Htrace)
        as [-> [Heq ->]].
      injection Heq as <- <-.
      split; [ reflexivity | split; [ | split; [ reflexivity | exact Hwell ] ] ].
      eapply Forall_impl; [ | exact Hres ]. now intros e [He _].
Qed.

Lemma runCommand_invokes_handler_last_witness :
  let argv := {| positional := []; named := [("name", JStr "Ada")] |} in
  let flags := [("exuberant", JBool false); ("name", JStr "Ada")] in
  trace (runCommand Sample.quiet_env "greet" Sample.greet argv)
  = [EvParseFlag "exuberant"; EvCallDefault; EvCallValidate (JBool false);
     EvParseFlag "name"; EvCallValidate (JStr "Ada")]
    +++ EvRun flags None :: []
  /\ well_resolved Sample.greet argv flags None.
Proof.
  split; [ reflexivity | ].
  exact (proj2 (proj2 (proj2
           (runCommand_invokes_handler_last
              Sample.quiet_env "greet" Sample.greet
              {| positional := []; named := [("name", JStr "Ada")] |}
              [EvParseFlag "exuberant"; EvCallDefault;
               EvCallValidate (JBool false);
               EvParseFlag "name"; EvCallValidate (JStr "Ada")]
              [("exuberant", JBool false); ("name", JStr "Ada")] None []
              eq_refl)))).
Defined.

(* --------------------------------------------------------------------- *)
(** ** Away from a terminal *)
(* --------------------------------------------------------------------- *)

Section Detached.

Variable env : Env.
Variable prompt : PromptModule.
Hypothesis detached : isTTY env = false.

Lemma tryPrompt_detached name flag :
  tryPrompt (with_prompt env prompt) name flag = tryPrompt env name flag.
Proof.
  rewrite (tryPrompt_not_interactive env name flag detached).
  now apply tryPrompt_not_interactive.
Qed.

Lemma parseFlag_detached name flag argv :
  parseFlag (with_prompt env prompt) name flag argv = parseFlag env name flag argv.
Proof. unfold parseFlag. now rewrite tryPrompt_detached. Qed.

Lemma parseArg_detached i arg given :
  parseArg (with_prompt env prompt) i arg given = parseArg env i arg given.
Proof. unfold parseArg. now rewrite tryPrompt_detached. Qed.

Lemma parseFlags_loop_detached flagSet argv :
  forall names result,
    parseFlags_loop (with_prompt env prompt) flagSet argv names result
    = parseFlags_loop env flagSet argv names result.
Proof.
  induction names as [ | name rest IH]; intro result; cbn [parseFlags_loop].
  - reflexivity.
  - destruct (Obj.get flagSet name) as [flag | ]; [ | reflexivity ].
    rewrite parseFlag_detached. apply bind_ext. intro v. apply IH.
Qed.

Lemma parseFlagMap_detached flagSet argv :
  parseFlagMap (with_prompt env prompt) flagSet argv
  = parseFlagMap env flagSet argv.
Proof.
  unfold parseFlagMap.
  destruct (Nat.ltb 0 (List.length (unknownFlags flagSet argv)));
    [ reflexivity | ].
  rewrite parseFlags_loop_detached. apply bind_ext. intro result.
  apply parseFlags_loop_detached.
Qed.

Lemma parseArgs_loop_detached given :
  forall remaining i results,
    parseArgs_loop (with_prompt env prompt) given i remaining results
    = parseArgs_loop env given i remaining results.
Proof.
  induction remaining as [ | arg rest IH]; intros i results;
    cbn [parseArgs_loop].
  - reflexivity.
  - rewrite parseArg_detached. apply bind_ext. intro v. apply IH.
Qed.

Lemma runCommand_detached name command argv :
  runCommand (with_prompt env prompt) name command argv
  = runCommand env name command argv.
Proof.
  unfold runCommand. destruct (wantsHelp argv); [ reflexivity | ].
  destruct command as [description flags run | description flags args rest run].
  - now rewrite parseFlagMap_detached.
  - unfold parseArgsArray. rewrite parseArgs_loop_detached.
    apply bind_ext. intro a. apply bind_ext. intro r.
    now rewrite parseFlagMap_detached.
Qed.

Lemma runCommand_never_asks name command argv :
  Forall (fun e => is_ask_event e = false)
         (trace (runCommand env name command argv)).
Proof.
  destruct (wantsHelp argv) eqn:Hhelp.
  - eapply Forall_impl; [ | apply (runCommand_help_trace env name command argv Hhelp) ].
    intros e [He | [text ->]]; [ now destruct e | reflexivity ].
  - destruct (runCommand_shape env name command argv Hhelp)
      as [resolution [handler [-> [Hres Hhandler]]]].
    apply Forall_app. split.
    + eapply Forall_impl; [ | exact Hres ]. intros e [_ He]. now apply He.
    + destruct Hhandler as [-> | [f [pos [-> _]]]]; repeat constructor.
Qed.

Lemma loadCommand_never_asks commandName loaders :
  Forall (fun e => is_ask_event e = false)
         (trace (loadCommand commandName loaders)).
Proof.
  unfold loadCommand. destruct (Obj.get loaders commandName); [ | constructor ].
  rewrite bind_emit. repeat constructor.
Qed.

(** X6: When the process is not attached to a terminal, neither [runCommand]
    nor [runLoaders] ever asks for a value (no question is put to the
    prompting collaborator and no custom prompt function is called), and
    what they do does not depend on the prompting collaborator at all. *)
Theorem detached_runs_never_prompt :
  forall name command commandLoaders argv,
    Forall (fun e => is_ask_event e = false)
           (trace (runCommand env name command argv))
    /\ Forall (fun e => is_ask_event e = false)
              (trace (runLoaders env name commandLoaders argv))
    /\ runCommand (with_prompt env prompt) name command argv
       = runCommand env name command argv
    /\ runLoaders (with_prompt env prompt) name commandLoaders argv
       = runLoaders env name commandLoaders argv.
Proof.
  intros name command commandLoaders argv.
  split; [ apply runCommand_never_asks | ].
  split; [ | split; [ apply runCommand_detached | ] ].
  - unfold runLoaders.
    destruct (is_undefined (nth 0 (positional argv) JUndefined)
              || is_help_token (nth 0 (positional argv) JUndefined)
              || wantsHelp argv
                 && negb (Js.truthy (nth 0 (positional argv) JUndefined))).
    + apply Forall_trace_bind; [ constructor | ]. intros about _.
      destruct (negb (String.eqb about "")).
      * apply Forall_trace_bind; [ apply loadCommand_never_asks | ].
        intros c _. apply runCommand_never_asks.
      * apply Forall_trace_bind.
        -- unfold getCommandLoadersUsage.
           apply Forall_trace_bind; [ | intros; constructor ].
           unfold loadAllCommands. cbn [trace fst].
           apply Forall_forall. intros e He. apply in_map_iff in He.
           now destruct He as [entry [<- _]].
        -- intros usage _. repeat constructor.
    + apply Forall_trace_bind; [ constructor | ]. intros text _.
      apply Forall_trace_bind; [ apply loadCommand_never_asks | ].
      intros c _. apply runCommand_never_asks.
  - unfold runLoaders.
    destruct (is_undefined (nth 0 (positional argv) JUndefined)
              || is_help_token (nth 0 (positional argv) JUndefined)
              || wantsHelp argv
                 && negb (Js.truthy (nth 0 (positional argv) JUndefined))).
    + apply bind_ext. intro about.
      destruct (negb (String.eqb about "")); [ | reflexivity ].
      apply bind_ext. intro c. apply runCommand_detached.
    + apply bind_ext. intro text. apply bind_ext. intro c.
      apply runCommand_detached.
Qed.

End Detached.

Lemma detached_runs_never_prompt_witness :
  isTTY Sample.quiet_env = false
  /\ runCommand (with_prompt Sample.quiet_env (scripted_prompt [JStr "Ada"]))
                "greet" Sample.greet Sample.no_arguments
     = runCommand Sample.quiet_env "greet" Sample.greet Sample.no_arguments.
Proof.
  split; [ reflexivity | ].
  exact (proj1 (proj2 (proj2
           (detached_runs_never_prompt
              Sample.quiet_env (scripted_prompt [JStr "Ada"]) eq_refl
              "greet" Sample.greet [] Sample.no_arguments)))).
Defined.

(* --------------------------------------------------------------------- *)
(** ** Routing to a subcommand *)
(* --------------------------------------------------------------------- *)

Lemma wantsHelp_named (tokens tokens' : list JsValue) (flags : JsObject) :
  wantsHelp {| positional := tokens; named := flags |}
  = wantsHelp {| positional := tokens'; named := flags |}.
Proof. reflexivity. Qed.

Lemma runCommand_when_help env name command argv :
  wantsHelp argv = true ->
  runCommand env name command argv
  = (usage <- getCommandUsage env name command ;; emit (EvLog usage)).
Proof. intro Hhelp. unfold runCommand. now rewrite Hhelp. Qed.

Lemma runLoaders_named_command env name commandLoaders token rest flags :
  token <> "help" ->
  wantsHelp {| positional := JStr token :: rest; named := flags |} = false
  \/ token <> "" ->
  runLoaders env name commandLoaders
    {| positional := JStr token :: rest; named := flags |}
  = (command <- loadCommand token commandLoaders ;;
     runCommand env (name ++ " " ++ token) command
       {| positional := rest; named := flags |}).
Proof.
  intros Hnot_help Hcase. unfold runLoaders.
  cbn [positional named nth tl is_undefined is_help_token Js.truthy
       Js.toString Js.String_ orb].
  apply String.eqb_neq in Hnot_help. rewrite Hnot_help. cbn [orb].
  assert (Hcond :
            wantsHelp {| positional := JStr token :: rest; named := flags |}
            && negb (negb (String.eqb token "")) = false).
  { destruct Hcase as [-> | Hne]; [ reflexivity | ].
    apply String.eqb_neq in Hne. rewrite Hne. apply andb_false_r. }
  rewrite Hcond. now rewrite bind_lift_returned.
Qed.



(** X8: A first positional token that names a loader is routed: the loader is
    invoked, and the command it returns is run under the composite name, with
    the remaining positional tokens and all the flags unchanged as its raw
    arguments. *)
Theorem runLoaders_routes_to_command :
  forall env name commandLoaders token rest flags loader command,
    token <> "help" ->
    token <> "" ->
    Obj.get commandLoaders token = Some loader ->
    loader tt = Returned command ->
    runLoaders env name commandLoaders
      {| positional := JStr token :: rest; named := flags |}
    = (EvLoad token
         :: trace (runCommand env (name ++ " " ++ token) command
                     {| positional := rest; named := flags |}),
       outcome (runCommand env (name ++ " " ++ token) command
                  {| positional := rest; named := flags |})).
Proof.
  intros env name commandLoaders token rest flags loader command
         Hhelp Hempty Hloader Hcommand.
  rewrite runLoaders_named_command by auto.
  unfold loadCommand. rewrite Hloader, bind_assoc, bind_emit, Hcommand.
  now rewrite bind_lift_returned.
Qed.

Lemma runLoaders_routes_to_command_witness :
  let loaders := [("greet", fun _ : unit => Returned Sample.greet)] in
  "greet" <> "help" /\ "greet" <> ""
  /\ outcome (runLoaders Sample.quiet_env "cli" loaders
                {| positional := [JStr "greet"];
                   named := [("name", JStr "Ada")] |})
     = outcome (runCommand Sample.quiet_env "cli greet" Sample.greet
                  {| positional := []; named := [("name", JStr "Ada")] |}).
Proof.
  assert (H1 : "greet" <> "help") by discriminate.
  assert (H2 : "greet" <> "") by discriminate.
  split; [ exact H1 | split; [ exact H2 | ] ].
  rewrite (runLoaders_routes_to_command
             Sample.quiet_env "cli"
             [("greet", fun _ => Returned Sample.greet)]
             "greet" [] [("name", JStr "Ada")]
             (fun _ => Returned Sample.greet) Sample.greet
             H1 H2 eq_refl eq_refl).
  reflexivity.
Defined.

(** X9: Asking for help after the subcommand is the same as asking for it
    before: with a truthy help flag, [name <command> ...] does exactly what
    [name help <command>] does, whatever else is given. *)
Theorem help_flag_after_subcommand :
  forall env name commandLoaders token rest flags rest' flags',
    token <> "help" ->
    token <> "" ->
    wantsHelp {| positional := JStr token :: rest; named := flags |} = true ->
    runLoaders env name commandLoaders
      {| positional := JStr token :: rest; named := flags |}
    = runLoaders env name commandLoaders
        {| positional := JStr "help" :: JStr token :: rest'; named := flags' |}.
Proof.
  intros env name commandLoaders token rest flags rest' flags'
         Hhelp Hempty Hwants.
  rewrite runLoaders_named_command by auto.
  unfold runLoaders at 1.
  cbn [positional named nth tl is_undefined is_help_token String.eqb
       Ascii.eqb Bool.eqb orb Js.toString Js.String_].
  rewrite bind_lift_returned.
  apply String.eqb_neq in Hempty. rewrite Hempty. cbn [negb].
  apply bind_ext. intro command.
  rewrite (runCommand_when_help env _ command
             {| positional := rest; named := flags |})
    by (rewrite <- Hwants; apply wantsHelp_named).
  now rewrite (runCommand_when_help env _ command help_request).
Qed.

Lemma help_flag_after_subcommand_witness :
  let loaders := [("greet", fun _ : unit => Returned Sample.greet)] in
  "greet" <> "help" /\ "greet" <> ""
  /\ wantsHelp {| positional := [JStr "greet"; JStr "x"];
                  named := [("h", JBool true)] |} = true
  /\ runLoaders Sample.quiet_env "cli" loaders
       {| positional := [JStr "greet"; JStr "x"]; named := [("h", JBool true)] |}
     = runLoaders Sample.quiet_env "cli" loaders
         {| positional := [JStr "help"; JStr "greet"]; named := [] |}.
Proof.
  assert (H1 : "greet" <> "help") by discriminate.
  assert (H2 : "greet" <> "") by discriminate.
  split; [ exact H1 | split; [ exact H2 | split; [ reflexivity | ] ] ].
  exact (help_flag_after_subcommand
           Sample.quiet_env "cli"
           [("greet", fun _ => Returned Sample.greet)]
           "greet" [JStr "x"] [("h", JBool true)] [] [] H1 H2 eq_refl).
Defined.

(* --------------------------------------------------------------------- *)
(** ** The default parser of prompted input *)
(* --------------------------------------------------------------------- *)

Ltac peel s :=
  destruct s as [ | [[|] [|] [|] [|] [|] [|] [|] [|]] s]; try reflexivity.

Lemma text_literal_cases (s : string) :
  (let value := JStr s in
   match value with
   | JStr "true" => Returned (JBool true)
   | JStr "false" => Returned (JBool false)
   | _ => Returned value
   end)
  = if String.eqb s "true" then Returned (JBool true)
    else if String.eqb s "false" then Returned (JBool false)
    else Returned (JStr s).
Proof. peel s; peel s; peel s; peel s; peel s; peel s. Qed.

Lemma number_of_text_numeric (s : string) :
  Js.typeof (Text.number_of_text s) = "number".
Proof.
  unfold Text.number_of_text. destruct (Text.hex_literal s); [ reflexivity | ].
  destruct (Text.decimal_literal s) as [l | ]; [ | reflexivity ].
  destruct (Text.decimal_value l); reflexivity.
Qed.

Lemma defaultParser_number (v : JsValue) :
  Js.typeof v = "number" -> defaultParser v = Returned v.
Proof. destruct v; try discriminate; reflexivity. Qed.

Lemma isNumber_text (s : string) :
  isNumber (JStr s)
  = Returned (is_some (Text.hex_literal s) || is_some (Text.decimal_literal s)).
Proof.
  unfold isNumber. cbn [Js.typeof Js.toString Js.String_ String.eqb Ascii.eqb
                        Bool.eqb].
  destruct (Text.hex_literal s); [ reflexivity | ].
  destruct (Text.decimal_literal s); reflexivity.
Qed.

Lemma defaultParser_of_text (s : string) :
  defaultParser (JStr s)
  = if is_some (Text.hex_literal s) || is_some (Text.decimal_literal s)
    then Returned (Text.number_of_text s)
    else if String.eqb s "true" then Returned (JBool true)
    else if String.eqb s "false" then Returned (JBool false)
    else Returned (JStr s).
Proof.
  unfold defaultParser. rewrite isNumber_text.
  destruct (is_some (Text.hex_literal s) || is_some (Text.decimal_literal s)).
  - reflexivity.
  - exact (text_literal_cases s).
Qed.

(** X10: The default parser never fails on text, and what it makes of a text
    is one of four things: a number, exactly when the text matches the
    hexadecimal or the decimal pattern; [true] for the text [true]; [false]
    for the text [false]; and otherwise the text itself. *)
Theorem defaultParser_on_text :
  forall s,
    exists v,
      defaultParser (JStr s) = Returned v
      /\ ((isNumber (JStr s) = Returned true /\ Js.typeof v = "number")
          \/ (isNumber (JStr s) = Returned false
              /\ ((s = "true" /\ v = JBool true)
                  \/ (s = "false" /\ v = JBool false)
                  \/ (s <> "true" /\ s <> "false" /\ v = JStr s)))).
Proof.
  intro s. rewrite defaultParser_of_text, isNumber_text.
  destruct (is_some (Text.hex_literal s) || is_some (Text.decimal_literal s)).
  - eexists. split; [ reflexivity | ]. left.
    split; [ reflexivity | apply number_of_text_numeric ].
  - destruct (String.eqb_spec s "true") as [-> | Htrue].
    + eexists. split; [ reflexivity | ]. right. split; [ reflexivity | ].
      left. now split.
    + destruct (String.eqb_spec s "false") as [-> | Hfalse].
      * eexists. split; [ reflexivity | ]. right. split; [ reflexivity | ].
        right. left. now split.
      * eexists. split; [ reflexivity | ]. right. split; [ reflexivity | ].
        right. right. now repeat split.
Qed.

(** X11: The default parser is idempotent: parsing what it returned returns
    the same value.  (The question built for a prompt validates an answer
    by filtering it once more, so this is what makes that harmless when the
    spec declares no [parse].) *)
Theorem defaultParser_idempotent :
  forall x y, defaultParser x = Returned y -> defaultParser y = Returned y.
Proof.
  intros x y H. destruct x as [ | | b | n | t | s | items].
  - discriminate H.
  - discriminate H.
  - destruct b; injection H as <-; reflexivity.
  - injection H as <-. reflexivity.
  - injection H as <-. reflexivity.
  - rewrite defaultParser_of_text in H.
    destruct (is_some (Text.hex_literal s) || is_some (Text.decimal_literal s))
      eqn:Hnumeric.
    + injection H as <-. apply defaultParser_number, number_of_text_numeric.
    + destruct (String.eqb s "true") eqn:Htrue;
        [ injection H as <-; reflexivity | ].
      destruct (String.eqb s "false") eqn:Hfalse;
        [ injection H as <-; reflexivity | ].
      injection H as <-. rewrite defaultParser_of_text.
      now rewrite Hnumeric, Htrue, Hfalse.
  - unfold defaultParser in H.
    destruct (isNumber (JArr items)) as [[ | ] | e] eqn:Hnum.
    + injection H as <-. apply defaultParser_number.
      cbn [Number_]. apply number_of_text_numeric.
    + injection H as <-. unfold defaultParser. now rewrite Hnum.
    + discriminate H.
Qed.

Lemma defaultParser_idempotent_witness :
  defaultParser (JStr "0x10") = Returned (JNum 16)
  /\ defaultParser (JNum 16) = Returned (JNum 16).
Proof.
  split; [ reflexivity | ].
  exact (defaultParser_idempotent (JStr "0x10") (JNum 16) eq_refl).
Defined.


(* --------------------------------------------------------------------- *)
(** ** The usage line and the tables of the help text *)
(* --------------------------------------------------------------------- *)

Lemma usage_of_flags_from (total : nat) :
  forall (entries : FlagMap) (usage : list string) (omitted : bool),
    fold_left
      (fun (acc : list string * bool) (entry : string * Flag.t) =>
         let (usage, omitted) := acc in
         let (flagName, flag) := entry in
         let optional := is_some (Flag.default flag) || is_some (Flag.prompt flag) in
         let display := "--" ++ flagName ++ "=" ++ renderVar flagName in
         if negb optional then (usage +++ [display], omitted)
         else if optional && Nat.ltb total 5 then
           (usage +++ [renderOptional display], omitted)
         else (usage, true))
      entries (usage, omitted)
    = if Nat.ltb total 5 then
        (usage +++ map (fun entry =>
                          if is_optional (snd entry)
                          then renderOptional (usage_display (fst entry))
                          else usage_display (fst entry))
                       entries,
         omitted)
      else
        (usage +++ map (fun entry => usage_display (fst entry))
                       (filter (fun entry => negb (is_optional (snd entry)))
                               entries),
         omitted || existsb (fun entry => is_optional (snd entry)) entries).
Proof.
  induction entries as [ | [flagName flag] entries IH]; intros usage omitted;
    cbn [fold_left map filter existsb fst snd].
  - rewrite app_nil_r, orb_false_r. now destruct (Nat.ltb total 5).
  - fold (is_optional flag). fold (usage_display flagName).
    destruct (is_optional flag); cbn [negb andb].
    + destruct (Nat.ltb total 5) eqn:Hfew.
      * rewrite IH, ?Hfew. now rewrite <- app_assoc.
      * rewrite IH, ?Hfew. now rewrite orb_true_r.
    + rewrite IH. destruct (Nat.ltb total 5); now rewrite <- app_assoc.
Qed.

(** X13: What the usage line shows of the flags.  With fewer than five
    declared flags every flag is shown, in declaration order, an optional one
    (one with a default or a custom prompt) in brackets, and the ["[flags]"]
    marker is not used.  With five or more, only the required flags are
    shown, and the marker is used exactly when some flag is optional.  A
    required flag is shown in both cases. *)
Theorem usage_of_flags_shows :
  forall flagSet,
    usage_of_flags flagSet
    = (if Nat.ltb (List.length flagSet) 5 then
         (map (fun entry =>
                 if is_optional (snd entry)
                 then renderOptional (usage_display (fst entry))
                 else usage_display (fst entry))
              flagSet,
          false)
       else
         (map (fun entry => usage_display (fst entry))
              (filter (fun entry => negb (is_optional (snd entry))) flagSet),
          existsb (fun entry => is_optional (snd entry)) flagSet))
    /\ forall flagName flag,
         In (flagName, flag) flagSet ->
         is_optional flag = false ->
         In (usage_display flagName) (fst (usage_of_flags flagSet)).
Proof.
  intro flagSet.
  assert (Hshape :
            usage_of_flags flagSet
            = (if Nat.ltb (List.length flagSet) 5 then
                 (map (fun entry =>
                         if is_optional (snd entry)
                         then renderOptional (usage_display (fst entry))
                         else usage_display (fst entry))
                      flagSet,
                  false)
               else
                 (map (fun entry => usage_display (fst entry))
                      (filter (fun entry => negb (is_optional (snd entry)))
                              flagSet),
                  existsb (fun entry => is_optional (snd entry)) flagSet))).
  { exact (usage_of_flags_from (List.length flagSet) flagSet [] false). }
  split; [ exact Hshape | ].
  intros flagName flag Hin Hrequired. rewrite Hshape.
  destruct (Nat.ltb (List.length flagSet) 5); cbn [fst].
  - apply in_map_iff. exists (flagName, flag). cbn [fst snd].
    now rewrite Hrequired.
  - apply in_map_iff. exists (flagName, flag). split; [ reflexivity | ].
    apply filter_In. cbn [snd]. now rewrite Hrequired.
Qed.

Lemma usage_of_flags_shows_witness :
  In ("name", Sample.name_flag) Sample.greet_flags
  /\ is_optional Sample.name_flag = false
  /\ In "--name=<name>" (fst (usage_of_flags Sample.greet_flags)).
Proof.
  assert (Hin : In ("name", Sample.name_flag) Sample.greet_flags) by now left.
  split; [ exact Hin | split; [ reflexivity | ] ].
  exact (proj2 (usage_of_flags_shows Sample.greet_flags)
           "name" Sample.name_flag Hin eq_refl).
Defined.

Lemma split_no_separator (sep : ascii) (s : string) :
  Forall (fun part => has_char sep part = false) (Str.split sep s).
Proof.
  induction s as [ | c r IH]; cbn [Str.split].
  - repeat constructor.
  - destruct (Ascii.eqb c sep) eqn:Hc.
    + constructor; [ reflexivity | exact IH ].
    + destruct (Str.split sep r) as [ | h t].
      * constructor; [ | constructor ]. cbn [has_char]. now rewrite Hc.
      * inversion IH as [ | ? ? Hh Ht]; subst.
        constructor; [ | exact Ht ]. cbn [has_char]. now rewrite Hc, Hh.
Qed.

(** X14: What [renderCompactTable] hands to the table renderer.  The first
    row of the data (the header) is left out; no cell that is handed over
    holds a line break, a cell of several lines having been spread over
    several rows; and when every row of the data below the header has [n]
    cells, so has every row handed over. *)
Theorem renderCompactTable_rows :
  forall env data,
    renderCompactTable env data = Str.trimRight (table env (compact_rows data))
    /\ (forall header header' rows,
          compact_rows (header :: rows) = compact_rows (header' :: rows))
    /\ Forall (Forall (fun cell => has_char (ascii_of_nat 10) cell = false))
              (compact_rows data)
    /\ forall n,
         Forall (fun row => List.length row = n) (tl data) ->
         Forall (fun row => List.length row = n) (compact_rows data).
Proof.
  intros env data. split; [ reflexivity | split; [ reflexivity | split ] ].
  - unfold compact_rows. apply Forall_forall. intros out Hout.
    apply in_flat_map in Hout. destruct Hout as [row [_ Hout]].
    apply in_map_iff in Hout. destruct Hout as [line [<- _]].
    apply Forall_forall. intros cell Hcell.
    apply in_map_iff in Hcell. destruct Hcell as [lines [<- Hlines]].
    apply in_map_iff in Hlines. destruct Hlines as [column [<- _]].
    destruct (nth_in_or_default line
                (filter (fun l => negb (Text.is_empty l)) (Str.lines column)) "")
      as [Hin | ->]; [ | reflexivity ].
    apply filter_In in Hin. destruct Hin as [Hin _].
    pose proof (split_no_separator (ascii_of_nat 10) column) as Hall.
    rewrite Forall_forall in Hall. now apply Hall.
  - intros n Hn. unfold compact_rows. apply Forall_forall. intros out Hout.
    apply in_flat_map in Hout. destruct Hout as [row [Hrow Hout]].
    apply in_map_iff in Hout. destruct Hout as [line [<- _]].
    rewrite !length_map. rewrite Forall_forall in Hn. now apply Hn.
Qed.

Lemma renderCompactTable_rows_witness :
  let data := [["Flag"; "Description"];
               ["--name"; "first" ++ Js.newline ++ "second"]] in
  Forall (fun row => List.length row = 2) (tl data)
  /\ compact_rows data = [["--name"; "first"]; [""; "second"]]
  /\ Forall (fun row => List.length row = 2) (compact_rows data).
Proof.
  assert (H : Forall (fun row => List.length row = 2)
                     (tl [["Flag"; "Description"];
                          ["--name"; "first" ++ Js.newline ++ "second"]]))
    by (repeat constructor).
  split; [ exact H | split; [ reflexivity | ] ].
  exact (proj2 (proj2 (proj2 (renderCompactTable_rows Sample.quiet_env _))) 2 H).
Defined.

(* --------------------------------------------------------------------- *)
(** ** Flags written out *)
(* --------------------------------------------------------------------- *)




(* --------------------------------------------------------------------- *)
(** ** The process entrypoint *)
(* --------------------------------------------------------------------- *)

Lemma split_nonempty (sep : ascii) (s : string) : Str.split sep s <> [].
Proof.
  destruct s as [ | c r]; cbn [Str.split]; [ discriminate | ].
  destruct (Ascii.eqb c sep); [ discriminate | ].
  destruct (Str.split sep r); discriminate.
Qed.

Lemma last_in_list {A} (xs : list A) (d : A) : xs <> [] -> In (last xs d) xs.
Proof.
  induction xs as [ | x [ | y xs] IH]; intro H.
  - contradiction.
  - now left.
  - right. apply IH. discriminate.
Qed.

(** X16: The exit codes of [runThenExitIfMain].  When the module is not the
    entrypoint nothing happens: [main] is not called and no exit is
    scheduled.  When it is, [main] is called once, with the tokenized
    [process.argv] and a name that is not empty and holds no [/]; the exit
    code is 0 when [main] returns, 2 when it throws a [CommandLineError]
    (only its message is logged), and 1 when it throws anything else (the
    error itself is logged). *)
Theorem runThenExitIfMain_exit_code :
  forall filename process_argv main,
    runThenExitIfMain false filename process_argv main
    = {| main_trace := []; logged := []; exit_code := None |}
    /\ exists name,
         name <> "" /\ has_char "/" name = false
         /\ runThenExitIfMain true filename process_argv main
            = match main name (Tokenizer.tokenize process_argv) with
              | (t, Returned _) =>
                  {| main_trace := t; logged := []; exit_code := Some 0 |}
              | (t, Thrown e) =>
                  if is_CommandLineError e then
                    {| main_trace := t;
                       logged := [LoggedMessage (error_message e)];
                       exit_code := Some 2 |}
                  else
                    {| main_trace := t; logged := [LoggedError e];
                       exit_code := Some 1 |}
              end.
Proof.
  intros filename process_argv main. split; [ reflexivity | ].
  exists (if Text.is_empty (last (Str.split "/" filename) "")
          then "(unknown command)"
          else last (Str.split "/" filename) "").
  split; [ | split ].
  - destruct (last (Str.split "/" filename) "") eqn:Hlast; cbn [Text.is_empty];
      discriminate.
  - destruct (Text.is_empty (last (Str.split "/" filename) "")); [ reflexivity | ].
    pose proof (split_no_separator "/" filename) as Hall.
    rewrite Forall_forall in Hall. apply Hall.
    apply last_in_list, split_nonempty.
  - unfold runThenExitIfMain, startIfMain. cbn [negb].
    destruct (main _ (Tokenizer.tokenize process_argv)) as [t [u | e]].
    + reflexivity.
    + now destruct (is_CommandLineError e).
Qed.





(* --------------------------------------------------------------------- *)
(** ** A flag that defaults to false *)
(* --------------------------------------------------------------------- *)



(* --------------------------------------------------------------------- *)
(** ** Validators *)
(* --------------------------------------------------------------------- *)

Lemma strict_equal_spec (a b : JsValue) :
  strict_equal a b = true <-> a = b /\ is_primitive a = true.
Proof.
  destruct a, b; cbn [strict_equal is_primitive];
    try (split; [ discriminate | intros [H _]; discriminate H ]);
    try (split; [ discriminate | intros [_ H]; discriminate H ]);
    try (split; [ now split | reflexivity ]).
  - rewrite Bool.eqb_true_iff. split; [ now intros -> | now intros [[= ->] _] ].
  - rewrite Z.eqb_eq. split; [ now intros -> | now intros [[= ->] _] ].
  - rewrite String.eqb_eq. split; [ now intros -> | now intros [[= ->] _] ].
  - rewrite String.eqb_eq. split; [ now intros -> | now intros [[= ->] _] ].
Qed.

(** X19: The validators for the primitive kinds are exclusive: no value is
    accepted by two of [string()], [number()] and [boolean()], and none of
    them accepts [undefined], [null] or an array. *)
Theorem primitive_validators_are_exclusive :
  forall v,
    validate.string v && validate.number v = false
    /\ validate.string v && validate.boolean v = false
    /\ validate.number v && validate.boolean v = false
    /\ (validate.string v || validate.number v || validate.boolean v = true
        <-> exists b n t s,
              v = JBool b \/ v = JNum n \/ v = JFloat t \/ v = JStr s).
Proof.
  intro v. destruct v as [ | | b | n | t | s | items];
    (repeat split; try reflexivity; try discriminate);
    try (intros [b' [n' [t' [s' H]]]]; decompose [or] H; discriminate);
    intros _.
  - exists b, 0%Z, "", "". now left.
  - exists true, n, "", "". right. now left.
  - exists true, 0%Z, t, "". right. right. now left.
  - exists true, 0%Z, "", s. right. right. now right.
Qed.

(** X20: On [undefined], [null], a boolean, an integer or a string, [oneOf]
    accepts a value exactly when it is one of the options; and [optional]
    accepts exactly [undefined] and what the validator it wraps accepts. *)
Theorem oneOf_and_optional_accept :
  forall options fn v,
    (is_exact v = true ->
     (validate.oneOf options v = true <-> In v options))
    /\ (validate.optional fn v = true <-> v = JUndefined \/ fn v = true).
Proof.
  intros options fn v. split.
  - intro Hexact. unfold validate.oneOf. rewrite existsb_exists. split.
    + intros [option [Hin Heq]]. apply strict_equal_spec in Heq.
      now destruct Heq as [-> _].
    + intro Hin. exists v. split; [ exact Hin | ].
      apply strict_equal_spec. split; [ reflexivity | now destruct v ].
  - unfold validate.optional. destruct v; try tauto;
      (split; [ intro H; now right | intros [H | H]; [ discriminate H | exact H ] ]).
Qed.

Lemma oneOf_and_optional_accept_witness :
  is_exact (JStr "b") = true
  /\ In (JStr "b") [JStr "a"; JStr "b"]
  /\ validate.oneOf [JStr "a"; JStr "b"] (JStr "b") = true.
Proof.
  split; [ reflexivity | ].
  split; [ right; left; reflexivity | ].
  apply (proj1 (oneOf_and_optional_accept
                  [JStr "a"; JStr "b"] validate.string (JStr "b")) eq_refl).
  right. left. reflexivity.
Defined.

(* --------------------------------------------------------------------- *)
(** ** Loading every command *)
(* --------------------------------------------------------------------- *)





(* --------------------------------------------------------------------- *)
(** ** Flags and positional tokens keep apart *)
(* --------------------------------------------------------------------- *)

Lemma parseFlag_named env name flag (argv argv' : MinimistArgv) :
  name <> "_" -> named argv' = named argv ->
  parseFlag env name flag argv' = parseFlag env name flag argv.
Proof.
  intros Hname Hnamed. unfold parseFlag, argv_has, argv_get.
  apply String.eqb_neq in Hname. now rewrite Hname, Hnamed.
Qed.

Lemma parseFlags_loop_named env flagSet (argv argv' : MinimistArgv) :
  named argv' = named argv ->
  forall names result,
    ~ In "_" names ->
    parseFlags_loop env flagSet argv' names result
    = parseFlags_loop env flagSet argv names result.
Proof.
  intro Hnamed. induction names as [ | name rest IH]; intros result Hnames;
    cbn [parseFlags_loop].
  - reflexivity.
  - destruct (Obj.get flagSet name) as [flag | ]; [ | reflexivity ].
    rewrite (parseFlag_named env name flag argv argv');
      [ | intros ->; apply Hnames; now left | exact Hnamed ].
    apply bind_ext. intro v. apply IH. intro H. apply Hnames. now right.
Qed.

(** X22: The positional tokens have no part in the resolution of the flags,
    as long as no flag is declared under the name ["_"]: [parseFlagMap] does
    the same whatever the positional list holds.  A flag that is declared
    under the name ["_"] always counts as given, and what it is given is the
    list of positional tokens. *)
Theorem parseFlagMap_ignores_positionals :
  forall env flagSet argv tokens flag,
    (~ In "_" (Obj.keys flagSet) ->
     parseFlagMap env flagSet {| positional := tokens; named := named argv |}
     = parseFlagMap env flagSet argv)
    /\ parseFlag env "_" flag argv
       = (EvParseFlag "_"
            :: trace (tryParseValue "--_" (OfFlag flag) (JArr (positional argv))),
          outcome (tryParseValue "--_" (OfFlag flag) (JArr (positional argv)))).
Proof.
  intros env flagSet argv tokens flag. split.
  - intro Hnames. unfold parseFlagMap.
    change (unknownFlags flagSet {| positional := tokens; named := named argv |})
      with (unknownFlags flagSet argv).
    destruct (Nat.ltb 0 (List.length (unknownFlags flagSet argv)));
      [ reflexivity | ].
    rewrite (parseFlags_loop_named env flagSet argv
               {| positional := tokens; named := named argv |} eq_refl).
    + apply bind_ext. intro result.
      apply (parseFlags_loop_named env flagSet argv
               {| positional := tokens; named := named argv |} eq_refl).
      unfold nonDefaultableFlagNames. rewrite filter_In. tauto.
    + unfold defaultableFlagNames. rewrite filter_In. tauto.
  - now rewrite parseFlag_cases.
Qed.

Lemma parseFlagMap_ignores_positionals_witness :
  ~ In "_" (Obj.keys Sample.greet_flags)
  /\ parseFlagMap Sample.quiet_env Sample.greet_flags
       {| positional := [JStr "stray"]; named := [("name", JStr "Ada")] |}
     = parseFlagMap Sample.quiet_env Sample.greet_flags
         {| positional := []; named := [("name", JStr "Ada")] |}.
Proof.
  assert (H : ~ In "_" (Obj.keys Sample.greet_flags)).
  { simpl. intuition discriminate. }
  split; [ exact H | ].
  exact (proj1 (parseFlagMap_ignores_positionals
                  Sample.quiet_env Sample.greet_flags
                  {| positional := []; named := [("name", JStr "Ada")] |}
                  [JStr "stray"] Sample.name_flag) H).
Defined.

(* --------------------------------------------------------------------- *)
(** ** When help fails *)
(* --------------------------------------------------------------------- *)




(* --------------------------------------------------------------------- *)
(** ** Positional arguments come first *)
(* --------------------------------------------------------------------- *)

Lemma tryParseValue_no_entry name flag value :
  Forall (fun e => is_entry_event e = false)
         (trace (tryParseValue name flag value)).
Proof.
  rewrite tryParseValue_cases. destruct (spec_parse flag) as [parse | ].
  - destruct (parse value); repeat constructor.
  - repeat constructor.
Qed.

Lemma tryPrompt_no_entry env name flag :
  Forall (fun e => is_entry_event e = false) (trace (tryPrompt env name flag)).
Proof.
  destruct (isTTY env) eqn:Htty.
  - rewrite (tryPrompt_interactive env name flag Htty). cbn [trace fst].
    constructor; [ reflexivity | ].
    constructor; [ now destruct (is_some (spec_prompt flag)) | ].
    destruct (prompted env name flag); repeat constructor.
  - rewrite (tryPrompt_not_interactive env name flag Htty). repeat constructor.
Qed.

Lemma no_entry_no_flag (t : list Event) :
  Forall (fun e => is_entry_event e = false) t ->
  Forall (fun e => is_flag_event e = false) t.
Proof. apply Forall_impl. intros e He. now destruct e. Qed.

Lemma no_entry_no_arg (t : list Event) :
  Forall (fun e => is_entry_event e = false) t ->
  Forall (fun e => is_arg_event e = false) t.
Proof. apply Forall_impl. intros e He. now destruct e. Qed.

Lemma parseArg_no_flag env i arg given :
  Forall (fun e => is_flag_event e = false) (trace (parseArg env i arg given)).
Proof.
  unfold parseArg. rewrite bind_emit. cbn [trace fst].
  constructor; [ reflexivity | ]. apply no_entry_no_flag.
  destruct (nth_error given i);
    [ apply tryParseValue_no_entry | apply tryPrompt_no_entry ].
Qed.

Lemma parseFlag_no_arg env name flag argv :
  Forall (fun e => is_arg_event e = false) (trace (parseFlag env name flag argv)).
Proof.
  rewrite parseFlag_cases. destruct (argv_has argv name).
  - constructor; [ reflexivity | ].
    apply no_entry_no_arg, tryParseValue_no_entry.
  - destruct (Flag.default flag) as [producer | ].
    + destruct (producer tt); repeat constructor.
    + constructor; [ reflexivity | ].
      apply no_entry_no_arg, tryPrompt_no_entry.
Qed.

Lemma parseFlagMap_no_arg env flagSet argv :
  Forall (fun e => is_arg_event e = false) (trace (parseFlagMap env flagSet argv)).
Proof.
  assert (Hloop : forall names result,
             Forall (fun e => is_arg_event e = false)
                    (trace (parseFlags_loop env flagSet argv names result))).
  { induction names as [ | name rest IH]; intro result; cbn [parseFlags_loop].
    - constructor.
    - destruct (Obj.get flagSet name) as [flag | ]; [ | constructor ].
      apply Forall_trace_bind; [ apply parseFlag_no_arg | ].
      intros v _. apply IH. }
  rewrite parseFlagMap_trace.
  destruct (Nat.ltb 0 (List.length (unknownFlags flagSet argv)));
    [ constructor | ].
  apply Forall_app. split; [ apply Hloop | ].
  destruct (outcome _); [ apply Hloop | constructor ].
Qed.

Lemma parseArgsArray_no_flag env argsArray argv :
  Forall (fun e => is_flag_event e = false)
         (trace (parseArgsArray env argsArray argv)).
Proof.
  rewrite parseArgsArray_resolve_positionals. unfold resolve_positionals.
  apply in_sequence_trace. intros m Hin. apply in_map_iff in Hin.
  destruct Hin as [ia [<- _]]. apply parseArg_no_flag.
Qed.

Lemma parseRest_no_flag restType givenArgs :
  Forall (fun e => is_flag_event e = false) (trace (parseRest restType givenArgs)).
Proof.
  rewrite parseRest_resolve_rest. unfold resolve_rest.
  apply in_sequence_trace. intros m Hin. apply in_map_iff in Hin.
  destruct Hin as [it [<- _]].
  apply no_entry_no_flag, tryParseValue_no_entry.
Qed.

Lemma split_after_prefix {A} (prefix rest before after : list A) (e : A) :
  ~ In e prefix ->
  prefix +++ rest = before +++ e :: after ->
  exists middle, before = prefix +++ middle /\ rest = middle +++ e :: after.
Proof.
  intros Hnot Hsplit. apply app_eq_app in Hsplit.
  destruct Hsplit as [l [[Hprefix Hrest] | [Hbefore Hrest]]].
  - destruct l as [ | x l].
    + exists []. rewrite app_nil_r in Hprefix. subst. split;
        [ now rewrite app_nil_r | symmetry; exact Hrest ].
    + exfalso. injection Hrest as <- _. apply Hnot. rewrite Hprefix.
      apply in_or_app. right. now left.
  - exists l. now split.
Qed.

(** X24: In a command with positional arguments, the positional arguments
    come first.  When the resolution of a flag starts, every declared
    position and the rest have been resolved successfully, and no positional
    argument is resolved (or prompted for) from then on. *)
Theorem positionals_resolve_before_flags :
  forall env name description flags args rest run argv before flagName after,
    trace (runCommand env name (ArgsCommand description flags args rest run) argv)
    = before +++ EvParseFlag flagName :: after ->
    (exists a r,
        outcome (parseArgsArray env args argv) = Returned a
        /\ outcome (parseRest rest (skipn (List.length args) (positional argv)))
           = Returned r)
    /\ Forall (fun e => is_arg_event e = false) after.
Proof.
  intros env name description flags args rest run argv before flagName after.
  destruct (wantsHelp argv) eqn:Hhelp.
  { intro Hsplit. exfalso.
    pose proof (runCommand_help_trace env name
                  (ArgsCommand description flags args rest run) argv Hhelp)
      as Hall.
    rewrite Hsplit in Hall. apply Forall_app in Hall. destruct Hall as [_ Hall].
    inversion Hall as [ | ? ? [He | [text He]] _]; discriminate He. }
  unfold runCommand. rewrite Hhelp, trace_bind.
  assert (Hflag_in : forall t : list Event,
             Forall (fun e => is_flag_event e = false) t ->
             ~ In (EvParseFlag flagName) t).
  { intros t Ht Hin. rewrite Forall_forall in Ht.
    specialize (Ht _ Hin). discriminate Ht. }
  destruct (outcome (parseArgsArray env args argv)) as [a | e] eqn:Ha.
  2:{ rewrite app_nil_r. intro Hsplit. exfalso.
      apply (Hflag_in _ (parseArgsArray_no_flag env args argv)).
      rewrite Hsplit. apply in_or_app. right. now left. }
  intro Hsplit.
  apply split_after_prefix in Hsplit;
    [ | apply Hflag_in, parseArgsArray_no_flag ].
  destruct Hsplit as [middle [_ Hsplit]].
  pose proof (parseArgsArray_length env args argv a Ha) as [Hlen _].
  rewrite Hlen in Hsplit. rewrite trace_bind in Hsplit.
  destruct (outcome (parseRest rest (skipn (List.length args) (positional argv))))
    as [r | e] eqn:Hr.
  2:{ rewrite app_nil_r in Hsplit. exfalso.
      apply (Hflag_in _ (parseRest_no_flag rest
                           (skipn (List.length args) (positional argv)))).
      rewrite Hsplit. apply in_or_app. right. now left. }
  apply split_after_prefix in Hsplit; [ | apply Hflag_in, parseRest_no_flag ].
  destruct Hsplit as [middle' [_ Hsplit]].
  split; [ now exists a, r | ].
  rewrite trace_bind in Hsplit.
  assert (Hall : Forall (fun e => is_arg_event e = false)
                        (middle' +++ EvParseFlag flagName :: after)).
  { rewrite <- Hsplit. apply Forall_app. split; [ apply parseFlagMap_no_arg | ].
    destruct (outcome (parseFlagMap env flags argv)) as [f | e];
      [ | constructor ].
    rewrite bind_emit. cbn [trace fst lift]. repeat constructor. }
  apply Forall_app in Hall. destruct Hall as [_ Hall].
  now inversion Hall.
Qed.

Lemma positionals_resolve_before_flags_witness :
  let command :=
    ArgsCommand "copy" Sample.greet_flags [Sample.text_arg "from"]
                (Sample.text_arg "more") (fun _ _ _ => Returned tt) in
  let argv := {| positional := [JStr "a"; JStr "b"];
                 named := [("name", JStr "Ada")] |} in
  trace (runCommand Sample.quiet_env "copy" command argv)
  = [EvParseArg 0; EvCallValidate (JStr "a"); EvCallValidate (JStr "b")]
    +++ EvParseFlag "exuberant"
    :: [EvCallDefault; EvCallValidate (JBool false);
        EvParseFlag "name"; EvCallValidate (JStr "Ada");
        EvRun [("exuberant", JBool false); ("name", JStr "Ada")]
              (Some ([JStr "a"], [JStr "b"]))]
  /\ Forall (fun e => is_arg_event e = false)
            [EvCallDefault; EvCallValidate (JBool false);
             EvParseFlag "name"; EvCallValidate (JStr "Ada");
             EvRun [("exuberant", JBool false); ("name", JStr "Ada")]
                   (Some ([JStr "a"], [JStr "b"]))].
Proof.
  split; [ reflexivity | ].
  exact (proj2 (positionals_resolve_before_flags
                  Sample.quiet_env "copy" "copy" Sample.greet_flags
                  [Sample.text_arg "from"] (Sample.text_arg "more")
                  (fun _ _ _ => Returned tt)
                  {| positional := [JStr "a"; JStr "b"];
                     named := [("name", JStr "Ada")] |}
                  [EvParseArg 0; EvCallValidate (JStr "a");
                   EvCallValidate (JStr "b")]
                  "exuberant"
                  [EvCallDefault; EvCallValidate (JBool false);
                   EvParseFlag "name"; EvCallValidate (JStr "Ada");
                   EvRun [("exuberant", JBool false); ("name", JStr "Ada")]
                         (Some ([JStr "a"], [JStr "b"]))]
                  eq_refl)).
Defined.
